(** * funtils: a shallow embedding of [index.js]

    The library is a set of small JavaScript helpers.  JavaScript values
    are modelled with an explicit heap: arrays, plain objects and
    functions live in heap cells and are handled through references, so
    that aliasing between a value and its copy can be stated.  Numbers are
    IEEE 754 binary64 floats, as in the language. *)

From stdpp Require Import base option list gmap strings pretty.
From Stdlib Require Import Floats.PrimFloat Floats.SpecFloat Floats.FloatOps
  Floats.FloatAxioms.

Open Scope string_scope.
Open Scope list_scope.

(** ** Values, heap cells and outcomes *)

Abbreviation loc := nat (only parsing).

(** A JavaScript value: the five primitive kinds and references to heap
    cells. *)
Inductive value : Type :=
  | VUndefined
  | VNull
  | VBool (b : bool)
  | VNumber (x : float)
  | VString (s : string)
  | VRef (l : loc).

(** A heap cell.  An object is an association list from property names to
    values, in enumeration order; a function is atomic and only carries an
    identifier of its code.  Property names are plain keys: the special
    place of integer-like names in the enumeration order and the name
    [__proto__] are not modelled, nor are arrays with holes or with
    properties besides their elements. *)
Inductive cell : Type :=
  | CArray (elems : list value)
  | CObject (props : list (string * value))
  | CFunction (code : nat).

Abbreviation heap := (list cell) (only parsing).

Inductive error : Type :=
  | TypeError
  | Error (msg : string).

(** The result of running a piece of JavaScript: a normal return, a thrown
    exception, a behaviour outside the modelled fragment ([Stuck]: a
    dangling reference, a property write on a non-object), or exhausted
    fuel ([Timeout]), which stands for unbounded recursion. *)
Inductive outcome (A : Type) : Type :=
  | Ret (a : A)
  | Throw (e : error)
  | Stuck
  | Timeout.
Arguments Ret {A} a.
Arguments Throw {A} e.
Arguments Stuck {A}.
Arguments Timeout {A}.

Definition outcome_bind {A B : Type} (f : A -> outcome B) (m : outcome A) : outcome B :=
  match m with
  | Ret a => f a
  | Throw e => Throw e
  | Stuck => Stuck
  | Timeout => Timeout
  end.

#[export] Instance outcome_ret : MRet outcome := fun A a => Ret a.
#[export] Instance outcome_mbind : MBind outcome := fun A B f m => outcome_bind f m.

Definition is_primitive (v : value) : bool :=
  match v with
  | VRef _ => false
  | _ => true
  end.

(** ** Heap operations *)

(** Allocation appends a cell; the new reference is the old heap size. *)
Definition alloc (h : heap) (c : cell) : heap * loc := (h ++ [c], length h).

(** [obj[k] = v] on a property list: an existing property keeps its place,
    a new one is added last. *)
Fixpoint set_prop (k : string) (v : value) (ps : list (string * value))
  : list (string * value) :=
  match ps with
  | [] => [(k, v)]
  | (k', v') :: ps' =>
      if String.eqb k k' then (k, v) :: ps' else (k', v') :: set_prop k v ps'
  end.

(** [obj[k]]: the value of an own property, [undefined] when absent. *)
Fixpoint get_prop (k : string) (ps : list (string * value)) : value :=
  match ps with
  | [] => VUndefined
  | (k', v') :: ps' => if String.eqb k k' then v' else get_prop k ps'
  end.

(** [o[k] = v] where [o] refers to a plain object. *)
Definition store_prop (o : loc) (k : string) (v : value) (h : heap) : outcome heap :=
  match h !! o with
  | Some (CObject ps) => Ret (<[o := CObject (set_prop k v ps)]> h)
  | _ => Stuck
  end.

(** ** clone *)

(** [obj_or_array.map(clone)]: the elements are cloned from left to right,
    each call seeing the heap left by the previous one. *)
Fixpoint map_clone (cl : heap -> value -> outcome (heap * value))
    (h : heap) (es : list value) : outcome (heap * list value) :=
  match es with
  | [] => Ret (h, [])
  | e :: es' =>
      '(h1, r) ← cl h e;
      '(h2, rs) ← map_clone cl h1 es';
      Ret (h2, r :: rs)
  end.

(** [Object.keys(obj_or_array).map(function (prop) { cloneObj[prop] =
    clone(obj_or_array[prop]); })]: one clone and one property write per
    key, in enumeration order. *)
Fixpoint clone_props (cl : heap -> value -> outcome (heap * value))
    (cloneObj : loc) (h : heap) (ps : list (string * value)) : outcome heap :=
  match ps with
  | [] => Ret h
  | (prop, v) :: ps' =>
      '(h1, r) ← cl h v;
      h2 ← store_prop cloneObj prop r h1;
      clone_props cl cloneObj h2 ps'
  end.

(** [clone(obj_or_array)].  Every call first allocates [cloneObj = {}],
    whichever branch is taken afterwards.  [map] allocates its result
    array before it visits the elements; the array is filled in one write
    once the elements are cloned, since nothing reads it in between.  The
    arrays that [Object.keys] and the second [map] build and drop are
    left out.  The source is never written, so its elements and
    properties are read once on entry.  The test [instanceof Object ||
    typeof === 'object'] also accepts [null] (whose [typeof] is
    ['object']), and [Object.keys(null)] throws a [TypeError]. *)
Fixpoint clone (fuel : nat) (h : heap) (obj_or_array : value)
  : outcome (heap * value) :=
  match fuel with
  | 0 => Timeout
  | S n =>
      let '(h0, cloneObj) := alloc h (CObject []) in
      match obj_or_array with
      | VRef l =>
          match h !! l with
          | Some (CArray es) =>
              let '(h1, a) := alloc h0 (CArray []) in
              '(h2, rs) ← map_clone (clone n) h1 es;
              Ret (<[a := CArray rs]> h2, VRef a)
          | Some (CFunction _) => Ret (h0, obj_or_array)
          | Some (CObject ps) =>
              h2 ← clone_props (clone n) cloneObj h0 ps;
              Ret (h2, VRef cloneObj)
          | None => Stuck
          end
      | VNull => Throw TypeError
      | _ => Ret (h0, obj_or_array)
      end
  end.

(** ** merge *)

(** [newObj[prop] = v].  The file is in strict mode, so a property write
    on a primitive throws; writes on arrays and functions are outside the
    modelled fragment. *)
Definition assign (target : value) (prop : string) (v : value) (h : heap)
  : outcome heap :=
  match target with
  | VRef o => store_prop o prop v h
  | _ => Throw TypeError
  end.

(** [Object.keys(props).map(function (prop) { newObj[prop] = props[prop]; })] *)
Fixpoint assign_props (newObj : value) (h : heap) (ps : list (string * value))
  : outcome heap :=
  match ps with
  | [] => Ret h
  | (prop, v) :: ps' =>
      h1 ← assign newObj prop v h;
      assign_props newObj h1 ps'
  end.

(** [Object.keys(props)] together with the values [props[prop]] that the
    callback reads.  Only plain objects are enumerated in the model;
    [null] and [undefined] make [Object.keys] throw. *)
Definition own_props (h : heap) (props : value) : outcome (list (string * value)) :=
  match props with
  | VRef p =>
      match h !! p with
      | Some (CObject ps) => Ret ps
      | _ => Stuck
      end
  | VNull | VUndefined => Throw TypeError
  | _ => Stuck
  end.

(** [merge(obj, props)] *)
Definition merge (fuel : nat) (h : heap) (obj props : value)
  : outcome (heap * value) :=
  '(h1, newObj) ← clone fuel h obj;
  ps ← own_props h1 props;
  h2 ← assign_props newObj h1 ps;
  Ret (h2, newObj).

(** ** slice and reduce *)

(** A built-in function of the runtime: receiver, arguments, heap. *)
Definition builtin : Type := value -> list value -> heap -> outcome (heap * value).

(** [Function.call.bind(f)]: calling the bound function with
    [(a0, a1, ...)] calls [f] with receiver [a0] and arguments
    [(a1, ...)]. *)
Definition call_bind (f : builtin) (arguments : list value) (h : heap)
  : outcome (heap * value) :=
  f (hd VUndefined arguments) (tl arguments) h.

(** The [Array] constructor called as a function.  The receiver is
    ignored.  With a single numeric argument it makes an array of that
    length without elements, which the model does not cover; otherwise the
    new array holds the arguments. *)
Definition Array_constructor : builtin :=
  fun _ args h =>
    match args with
    | [VNumber _] => Stuck
    | _ => let '(h1, a) := alloc h (CArray args) in Ret (h1, VRef a)
    end.

(** [var reduce = Function.call.bind(Array);] *)
Definition reduce : list value -> heap -> outcome (heap * value) :=
  call_bind Array_constructor.

(** [arr.reduce(f, z)] as the language defines it, for comparison: [f] is
    called with the accumulator, the element, its index and the array,
    from left to right, starting from [z].  [call] runs a function
    value. *)
Fixpoint number_of_nat (k : nat) : float :=
  match k with
  | 0 => 0%float
  | S k' => (number_of_nat k' + 1)%float
  end.

Section StandardReduce.
Variable call : value -> list value -> heap -> outcome (heap * value).

Fixpoint reduce_from (f arr : value) (k : nat) (es : list value)
    (acc : value) (h : heap) : outcome (heap * value) :=
  match es with
  | [] => Ret (h, acc)
  | e :: es' =>
      '(h1, acc1) ← call f [acc; e; VNumber (number_of_nat k); arr] h;
      reduce_from f arr (S k) es' acc1 h1
  end.

Definition Array_prototype_reduce : builtin :=
  fun this args h =>
    match this, args with
    | VRef l, f :: z :: _ =>
        match h !! l with
        | Some (CArray es) => reduce_from f this 0 es z h
        | _ => Stuck
        end
    | _, _ => Stuck
    end.
End StandardReduce.

(** [var slice = Function.call.bind([].slice);] over the runtime's
    [Array.prototype.slice], and the method call [arr.slice(...)] it is
    compared with. *)
Definition slice (Array_prototype_slice : builtin)
  : list value -> heap -> outcome (heap * value) :=
  call_bind Array_prototype_slice.

Definition method_slice (Array_prototype_slice : builtin)
    (arr : value) (args : list value) (h : heap) : outcome (heap * value) :=
  Array_prototype_slice arr args h.

(** ** existy and dispatch *)

(** [test != null]: loose inequality with [null] is false exactly for
    [null] and [undefined]. *)
Definition existy (test : value) : bool :=
  match test with
  | VNull | VUndefined => false
  | _ => true
  end.

(** A JavaScript function over a world state [W]: it receives its
    arguments, may change the state, and returns or throws. *)
Definition jsfun (W : Type) : Type := list value -> W -> outcome (W * value).

Section Dispatch.
Context {W : Type}.

(** The [for] loop of [do_dispatch], from index [i] on; [fns] holds the
    handlers not tried yet and [ret] the variable of that name. *)
Fixpoint dispatch_loop (fns : list (jsfun W)) (target : value)
    (args : list value) (ret : value) (s : W) : outcome (W * value) :=
  match fns with
  | [] => Ret (s, ret)
  | fn :: fns' =>
      '(s1, ret1) ← fn (target :: args) s;
      if existy ret1 then Ret (s1, ret1)
      else dispatch_loop fns' target args ret1 s1
  end.

(** [dispatch(fn1, ..., fnN)] returns [do_dispatch]; [target] is the
    first argument ([undefined] when there is none) and [args] the
    others. *)
Definition dispatch (fns : list (jsfun W)) : jsfun W :=
  fun arguments s =>
    dispatch_loop fns (hd VUndefined arguments) (tl arguments) VUndefined s.

(** Calling every function of a list in order, whatever it returns:
    the yardstick for "was invoked". *)
Fixpoint invoke_all (fns : list (jsfun W)) (arguments : list value) (s : W)
  : outcome (W * list value) :=
  match fns with
  | [] => Ret (s, [])
  | fn :: fns' =>
      '(s1, r) ← fn arguments s;
      '(s2, rs) ← invoke_all fns' arguments s1;
      Ret (s2, r :: rs)
  end.
End Dispatch.

(** A function instrumented with a call counter. *)
Definition counted {W : Type} (fn : jsfun W) : jsfun (W * nat) :=
  fun arguments st =>
    '(s1, r) ← fn arguments st.1;
    Ret ((s1, S st.2), r).

(** ** JSON.stringify and memoize *)

Definition dquote : string := String (Ascii.ascii_of_nat 34) EmptyString.

Fixpoint join (sep : string) (parts : list string) : string :=
  match parts with
  | [] => EmptyString
  | [p] => p
  | p :: ps => p +:+ sep +:+ join sep ps
  end.

Section JSON.
(** The two leaf serialisers of the runtime: the decimal form of a
    finite number and the quoted, escaped form of a string. *)
Variable number_to_string : float -> string.
Variable quote_json : string -> string.

Definition serialize_number (x : float) : string :=
  if is_nan x || is_infinity x then "null" else number_to_string x.

(** Array elements: a value without a JSON form is written [null]. *)
Fixpoint serialize_elements (ser : value -> outcome (option string))
    (es : list value) : outcome (list string) :=
  match es with
  | [] => Ret []
  | e :: es' =>
      o ← ser e;
      rest ← serialize_elements ser es';
      Ret (default "null" o :: rest)
  end.

(** Object members: a property whose value has no JSON form is left
    out. *)
Fixpoint serialize_members (ser : value -> outcome (option string))
    (ps : list (string * value)) : outcome (list string) :=
  match ps with
  | [] => Ret []
  | (k, v) :: ps' =>
      o ← ser v;
      rest ← serialize_members ser ps';
      Ret (match o with
           | Some str => (quote_json k +:+ ":" +:+ str) :: rest
           | None => rest
           end)
  end.

(** The serialisation of one value; [None] is the [undefined] that
    [undefined] and functions serialise to.  [stack] holds the
    containers being serialised, and meeting one of them again is the
    circular-structure [TypeError]. *)
Fixpoint serialize_property (fuel : nat) (h : heap) (stack : list loc)
    (v : value) : outcome (option string) :=
  match fuel with
  | 0 => Timeout
  | S n =>
      match v with
      | VUndefined => Ret None
      | VNull => Ret (Some "null")
      | VBool true => Ret (Some "true")
      | VBool false => Ret (Some "false")
      | VNumber x => Ret (Some (serialize_number x))
      | VString s => Ret (Some (quote_json s))
      | VRef l =>
          match h !! l with
          | None => Stuck
          | Some (CFunction _) => Ret None
          | Some (CArray es) =>
              if bool_decide (l ∈ stack) then Throw TypeError
              else
                parts ← serialize_elements (serialize_property n h (l :: stack)) es;
                Ret (Some ("[" +:+ join "," parts +:+ "]"))
          | Some (CObject ps) =>
              if bool_decide (l ∈ stack) then Throw TypeError
              else
                parts ← serialize_members (serialize_property n h (l :: stack)) ps;
                Ret (Some ("{" +:+ join "," parts +:+ "}"))
          end
      end
  end.

(** The [arguments] object: an object, not an array, whose enumerable
    properties are the indices. *)
Definition arguments_object (arguments : list value) : list (string * value) :=
  imap (fun i v => (pretty i, v)) arguments.

(** [JSON.stringify(arguments)].  The recursion is bounded by the stack
    of open containers, hence by the heap size. *)
Definition stringify_arguments (h : heap) (arguments : list value)
  : outcome string :=
  parts ← serialize_members
            (serialize_property (S (length h)) h [])
            (arguments_object arguments);
  Ret ("{" +:+ join "," parts +:+ "}").
End JSON.

Section Memoize.
Context {W : Type}.
Variable number_to_string : float -> string.
Variable quote_json : string -> string.
(** The heap that the world state holds, and the memoized function. *)
Variable heap_of : W -> heap.
Variable fn : jsfun W.

(** [memo[key]] on the table [memo = {}]: keys are serialisations and
    start with a brace, so no inherited property is ever met. *)
Definition memo_get (memo : gmap string value) (key : string) : value :=
  default VUndefined (memo !! key).

(** [typeof v === 'undefined'] *)
Definition typeof_undefined (v : value) : bool :=
  match v with
  | VUndefined => true
  | _ => false
  end.

(** [_memoize]: the state pairs the closure variable [memo] with the
    world of [fn]. *)
Definition _memoize : jsfun (gmap string value * W) :=
  fun arguments st =>
    let '(memo, s) := st in
    key ← stringify_arguments number_to_string quote_json (heap_of s) arguments;
    if typeof_undefined (memo_get memo key) then
      '(s1, r) ← fn arguments s;
      let memo1 := <[key := r]> memo in
      Ret ((memo1, s1), memo_get memo1 key)
    else Ret ((memo, s), memo_get memo key).

(** A run of successive calls of the wrapper. *)
Fixpoint memoize_calls (calls : list (list value)) (st : gmap string value * W)
  : outcome ((gmap string value * W) * list value) :=
  match calls with
  | [] => Ret (st, [])
  | arguments :: calls' =>
      '(st1, r) ← _memoize arguments st;
      '(st2, rs) ← memoize_calls calls' st1;
      Ret (st2, r :: rs)
  end.
End Memoize.

(** [memoize(fn)]: the wrapper starts from the empty table. *)
Definition memoize_init {W : Type} (s : W) : gmap string value * W := (∅, s).

(** ** generateScale *)

Definition generateScale (inputMin inputMax outputMin outputMax : float)
  : float -> float :=
  let inputDiff := (inputMax - inputMin)%float in
  let outputDiff := (outputMax - outputMin)%float in
  fun x =>
    let test := ((outputDiff * (x - inputMin) / inputDiff) + outputMin)%float in
    if (test <? outputMin)%float then outputMin
    else if (outputMax <? test)%float then outputMax
    else test.

(** ** monad *)

(** Values seen by the monad code: ordinary values, an instance under
    construction (created by [Object.create(prototype)], before [bind]
    and [value] are installed; this is what the modifier receives), and a
    finished instance, which closes over its stored value.  Instances
    carry no identity and no snapshot of the prototype: the prototype is
    the one state that all instances of a constructor share, whenever
    they were made. *)
Inductive mvalue : Type :=
  | MPlain (v : value)
  | MFresh
  | MInstance (stored : mvalue).

(** A function handed to [monad], [bind] or [lift]. *)
Definition mfun : Type := list mvalue -> outcome mvalue.

(** A property of the shared prototype: the marker [_is_monad = true] or
    the wrapper that [lift] builds around a function. *)
Inductive pentry : Type :=
  | PMarker
  | PLifted (fn : mfun).

(** [var prototype = Object.create(null); prototype._is_monad = true;] *)
Definition initial_prototype : gmap string pentry := {[ "_is_monad" := PMarker ]}.

(** Truthiness of an ordinary value. *)
Definition truthy (v : value) : bool :=
  match v with
  | VUndefined | VNull => false
  | VBool b => b
  | VNumber x => negb (is_nan x || (x =? 0)%float)
  | VString s => negb (String.eqb s EmptyString)
  | VRef _ => true
  end.

Section Monad.
(** The heap of ordinary objects; the monad code does not write it. *)
Variable h : heap.
(** The argument of [monad]: [None] when it is not a function. *)
Variable modifier : option (mvalue -> mvalue -> outcome mvalue).

(** [result && result._is_monad] as a condition.  An instance inherits
    the property from the prototype; an ordinary object has it when it
    carries a truthy own property of that name. *)
Definition is_monad (prototype : gmap string pentry) (result : mvalue) : bool :=
  match result with
  | MPlain (VRef l) =>
      match h !! l with
      | Some (CObject ps) => truthy (get_prop "_is_monad" ps)
      | _ => false
      end
  | MPlain _ => false
  | MFresh | MInstance _ =>
      match prototype !! "_is_monad" with
      | Some _ => true
      | None => false
      end
  end.

(** [unit(value)] *)
Definition unit (value : mvalue) : outcome mvalue :=
  value1 ← match modifier with
           | Some m => m MFresh value
           | None => Ret value
           end;
  Ret (MInstance value1).

(** [monad.bind(fn, args)] of an instance holding [value]; [args] is
    [None] when the argument is missing. *)
Definition bind (prototype : gmap string pentry) (value : mvalue)
    (fn : mfun) (args : option (list mvalue)) : outcome mvalue :=
  let argsCopy := default [] args in
  result ← fn (value :: argsCopy);
  if is_monad prototype result then Ret result else unit result.

(** [unit.lift(name, fn)]: every property of the prototype is [true] or
    a function, hence truthy. *)
Definition lift (name : string) (fn : mfun) (prototype : gmap string pentry)
  : outcome (gmap string pentry) :=
  match prototype !! name with
  | Some _ => Throw (Error (dquote +:+ name +:+ dquote +:+ " is already defined"))
  | None => Ret (<[name := PLifted fn]> prototype)
  end.

(** The wrapper stored by [lift], called on the instance [this]:
    [this.bind] is the own [bind] of a finished instance.  An instance
    under construction has none yet: the call throws, or never ends when
    a wrapper has itself been lifted as [bind]. *)
Definition lifted_wrapper (prototype : gmap string pentry) (fn : mfun)
    (this : mvalue) (arguments : list mvalue) : outcome mvalue :=
  match this with
  | MInstance value =>
      result ← bind prototype value fn (Some arguments);
      if is_monad prototype result then Ret result else unit result
  | MFresh =>
      match prototype !! "bind" with
      | Some (PLifted _) => Timeout
      | _ => Throw TypeError
      end
  | MPlain _ => Stuck
  end.

(** [monad.value()] *)
Definition instance_value (this : mvalue) : outcome mvalue :=
  match this with
  | MInstance value => Ret value
  | _ => Throw TypeError
  end.

(** The call [m[name](...arguments)] with ordinary arguments.  Own
    properties come first: a finished instance has [bind] and [value].
    ([bind] expects a function first; the arguments here are not
    functions of the model.)  Then the prototype is searched. *)
Definition call_method (prototype : gmap string pentry) (m : mvalue)
    (name : string) (arguments : list mvalue) : outcome mvalue :=
  match m with
  | MInstance value =>
      if String.eqb name "value" then Ret value
      else if String.eqb name "bind" then
        match arguments with
        | MPlain (VRef l) :: _ =>
            match h !! l with
            | Some (CFunction _) => Stuck
            | _ => Throw TypeError
            end
        | _ => Throw TypeError
        end
      else
        match prototype !! name with
        | Some (PLifted fn) => lifted_wrapper prototype fn m arguments
        | _ => Throw TypeError
        end
  | MFresh =>
      match prototype !! name with
      | Some (PLifted fn) => lifted_wrapper prototype fn m arguments
      | _ => Throw TypeError
      end
  | MPlain _ => Stuck
  end.

(** [a + b] where both are strings, or where an operand is an instance:
    an instance inherits from an object without prototype, so unless
    [valueOf] or [toString] have been lifted the conversion to a
    primitive throws. *)
Definition js_add (prototype : gmap string pentry) (a b : mvalue)
  : outcome mvalue :=
  let unconvertible :=
    match prototype !! "valueOf", prototype !! "toString" with
    | None, None => Throw TypeError
    | _, _ => Stuck
    end in
  match a, b with
  | MPlain (VString s), MPlain (VString t) => Ret (MPlain (VString (s +:+ t)))
  | (MFresh | MInstance _), _ => unconvertible
  | MPlain (VString _), (MFresh | MInstance _) => unconvertible
  | _, _ => Stuck
  end.
End Monad.

(** ** The structure of a value *)

(** What a value looks like once every reference is followed: the tree
    that a deep comparison walks.  A function is a leaf known by its
    reference. *)
#[warnings="-register-all"]
Inductive tree : Type :=
  | TUndefined
  | TNull
  | TBool (b : bool)
  | TNumber (x : float)
  | TString (s : string)
  | TFunction (l : loc)
  | TArray (ts : list tree)
  | TObject (ps : list (string * tree)).

(** [reify_from b fuel h v] unfolds [v] in [h], and fails on a dangling
    reference, when the fuel runs out (as it does on every cyclic value),
    and on an array or object stored below [b].  With [b = 0] this is the
    plain unfolding; with [b] the size of an older heap it also checks
    that every container of [v] was allocated since. *)
Fixpoint reify_from (b : loc) (fuel : nat) (h : heap) (v : value) : option tree :=
  match fuel with
  | 0 => None
  | S n =>
      match v with
      | VUndefined => Some TUndefined
      | VNull => Some TNull
      | VBool x => Some (TBool x)
      | VNumber x => Some (TNumber x)
      | VString s => Some (TString s)
      | VRef l =>
          match h !! l with
          | None => None
          | Some (CFunction _) => Some (TFunction l)
          | Some (CArray es) =>
              if decide (b ≤ l)%nat then TArray <$> mapM (reify_from b n h) es
              else None
          | Some (CObject ps) =>
              if decide (b ≤ l)%nat then
                TObject <$> mapM (fun p => pair p.1 <$> reify_from b n h p.2) ps
              else None
          end
      end
  end.

Definition reify : nat -> heap -> value -> option tree := reify_from 0.

(** Two values, each in its heap, are deep-equal when they unfold to the
    same tree; a value that unfolds at all is not cyclic. *)
Definition deep_equal (h1 : heap) (v1 : value) (h2 : heap) (v2 : value) : Prop :=
  exists n t, reify n h1 v1 = Some t /\ reify n h2 v2 = Some t.

Fixpoint null_free (t : tree) : bool :=
  match t with
  | TNull => false
  | TArray ts => forallb null_free ts
  | TObject ps => forallb (fun p => null_free p.2) ps
  | _ => true
  end.

(** No object of the tree lists a property name twice. *)
Fixpoint keys_distinct (t : tree) : bool :=
  match t with
  | TArray ts => forallb keys_distinct ts
  | TObject ps =>
      bool_decide (NoDup ps.*1) && forallb (fun p => keys_distinct p.2) ps
  | _ => true
  end.

(** The cells that can be reached from a value. *)
Inductive reachable (h : heap) : value -> loc -> Prop :=
  | reach_here l : reachable h (VRef l) l
  | reach_elem l es e l' :
      h !! l = Some (CArray es) -> e ∈ es -> reachable h e l' ->
      reachable h (VRef l) l'
  | reach_prop l ps k v l' :
      h !! l = Some (CObject ps) -> (k, v) ∈ ps -> reachable h v l' ->
      reachable h (VRef l) l'.

Definition is_function (h : heap) (l : loc) : Prop :=
  exists code, h !! l = Some (CFunction code).

(** [h'] has every function of [h], and every cell of [h] from [b] on. *)
Definition agree (b : loc) (h h' : heap) : Prop :=
  forall l c, h !! l = Some c ->
    ((b <= l)%nat \/ exists code, c = CFunction code) -> h' !! l = Some c.

(** ** identity, curry, partial and compose *)

Section Combinators.
Context {W : Type}.

(** [identity(me)]: the function returned ignores its arguments. *)
Definition identity (me : value) : jsfun W :=
  fun _ s => Ret (s, me).

(** [curry(fun)]: [fun(arg)] passes on the first argument alone,
    [undefined] when there is none. *)
Definition curry (fun_ : jsfun W) : jsfun W :=
  fun arguments s => fun_ [hd VUndefined arguments] s.

(** [partial(fun, ...pargs)]: [fun.apply(null, pargs.concat(slice(arguments)))] *)
Definition partial (fun_ : jsfun W) (pargs : list value) : jsfun W :=
  fun arguments s => fun_ (pargs ++ arguments) s.

(** [compose(f, g)]: [f(g(x))], where [x] is the first argument. *)
Definition compose (f g : jsfun W) : jsfun W :=
  fun arguments s =>
    '(s1, r) ← g [hd VUndefined arguments] s;
    f [r] s1.
End Combinators.

(** ** sortNumeric *)

Section SortNumeric.
(** The number that a string converts to, left to the runtime. *)
Variable string_to_number : string -> float.

(** The unary [+] on a primitive; the conversion of an object runs its
    [valueOf] or [toString] and is not modelled. *)
Definition to_number (v : value) : option float :=
  match v with
  | VUndefined => Some nan
  | VNull => Some 0%float
  | VBool true => Some 1%float
  | VBool false => Some 0%float
  | VNumber x => Some x
  | VString s => Some (string_to_number s)
  | VRef _ => None
  end.

(** [sortNumeric(a, b)]; [a > b] is [b < a]. *)
Definition sortNumeric (a b : value) : outcome value :=
  match to_number a, to_number b with
  | Some a, Some b =>
      Ret (VNumber (if (b <? a)%float then 1%float
                    else if (a <? b)%float then (-1)%float
                    else 0%float))
  | _, _ => Stuck
  end.
End SortNumeric.

(** ** values *)

(** [values(obj)]: [Object.keys(obj)] mapped through [obj[key]] into a
    new array. *)
Definition values (h : heap) (obj : value) : outcome (heap * value) :=
  ps ← own_props h obj;
  let '(h1, a) := alloc h (CArray (map (fun key => get_prop key ps) ps.*1)) in
  Ret (h1, VRef a).

(** ** getIndex *)

(** [x.id]: reading a property of [null] or [undefined] throws; a
    primitive, an array or a function has no property of that name. *)
Definition get_id (h : heap) (x : value) : outcome value :=
  match x with
  | VUndefined | VNull => Throw TypeError
  | VRef l =>
      match h !! l with
      | Some (CObject ps) => Ret (get_prop "id" ps)
      | Some _ => Ret VUndefined
      | None => Stuck
      end
  | _ => Ret VUndefined
  end.

(** [a === b]: no conversion, numbers compared as floats ([NaN] differs
    from itself, the two zeros are equal), references by identity. *)
Definition strict_equal (a b : value) : bool :=
  match a, b with
  | VUndefined, VUndefined => true
  | VNull, VNull => true
  | VBool x, VBool y => Bool.eqb x y
  | VNumber x, VNumber y => (x =? y)%float
  | VString s, VString t => String.eqb s t
  | VRef l, VRef l' => Nat.eqb l l'
  | _, _ => false
  end.

(** The loop of [getIndex] from index [i] on, [es] being the elements
    from there. *)
Fixpoint getIndex_loop (h : heap) (elem : value) (es : list value) (i : nat)
  : outcome value :=
  match es with
  | [] => Ret (VNumber (-1)%float)
  | e :: es' =>
      elem_id ← get_id h elem;
      arr_id ← get_id h e;
      if strict_equal elem_id arr_id then Ret (VNumber (number_of_nat i))
      else getIndex_loop h elem es' (S i)
  end.

(** [getIndex(arr, elem)].  On an object without [length] the bound [l]
    is [undefined] and the loop is not entered; other receivers that are
    not arrays are outside the model. *)
Definition getIndex (h : heap) (arr elem : value) : outcome value :=
  match arr with
  | VRef l =>
      match h !! l with
      | Some (CArray es) => getIndex_loop h elem es 0
      | Some (CObject ps) =>
          match get_prop "length" ps with
          | VUndefined => Ret (VNumber (-1)%float)
          | _ => Stuck
          end
      | _ => Stuck
      end
  | VUndefined | VNull => Throw TypeError
  | _ => Stuck
  end.

(** The elements that the loop of [getIndex] passes: their [id] can be
    read and is not the one looked for. *)
Definition passes (h : heap) (elem_id : value) (e : value) : Prop :=
  exists arr_id, get_id h e = Ret arr_id /\ strict_equal elem_id arr_id = false.

(** ** Calling [bind] on a value *)

Section MonadMethods.
Variable h : heap.
Variable modifier : option (mvalue -> mvalue -> outcome mvalue).

(** [m.bind(fn, args)].  A finished instance has its own [bind]; an
    instance under construction only finds a [bind] on the prototype, the
    wrapper of an operation lifted under that name, which calls
    [this.bind] again without end. *)
Definition instance_bind (prototype : gmap string pentry) (m : mvalue)
    (fn : mfun) (args : option (list mvalue)) : outcome mvalue :=
  match m with
  | MInstance value => bind h modifier prototype value fn args
  | MFresh =>
      match prototype !! "bind" with
      | Some (PLifted _) => Timeout
      | _ => Throw TypeError
      end
  | MPlain _ => Stuck
  end.

(** [unit] as a function that can be handed to [bind]. *)
Definition unit_fn : mfun :=
  fun arguments => unit modifier (hd (MPlain VUndefined) arguments).
End MonadMethods.

(** ** Cycles *)

(** [c] is an element of the array or a property value of the object at
    [l]; [l] is on a cycle when it can be reached from one of them. *)
Definition child_of (h : heap) (l : loc) (c : value) : Prop :=
  (exists es, h !! l = Some (CArray es) /\ c ∈ es) \/
  (exists ps k, h !! l = Some (CObject ps) /\ (k, c) ∈ ps).

Definition on_cycle (h : heap) (l : loc) : Prop :=
  exists c, child_of h l c /\ reachable h c l.

(** ** Test doubles

    The functions that the test suite hands to the library: spies that
    log their calls and return a fixed value, a stub with a constant
    result, and the exported [noop]. *)

(** [sinon.spy(function () { return ret; })], logging [id] at each call. *)
Definition spy (id : nat) (ret : value) : jsfun (list nat) :=
  fun _ log => Ret (log ++ [id], ret).

(** A function without state that always returns [ret]. *)
Definition constant_fn (ret : value) : jsfun () :=
  fun _ s => Ret (s, ret).

(** [noop: function(){}] *)
Definition noop : jsfun () := constant_fn VUndefined.

(** Running [function (a, b) { return a + b; }] on two numbers. *)
Definition call_add : value -> list value -> heap -> outcome (heap * value) :=
  fun _ args h =>
    match args with
    | VNumber a :: VNumber b :: _ => Ret (h, VNumber (a + b)%float)
    | _ => Stuck
    end.

(** [function (monad, value) { return value + ' - modified'; }], the
    modifier of the test suite; [prototype] is the shared prototype at
    the time of the call. *)
Definition test_modifier (prototype : gmap string pentry)
  : mvalue -> mvalue -> outcome mvalue :=
  fun _ value => js_add prototype value (MPlain (VString " - modified")).

(** [m => m + ' - modified']: a modifier that uses its first parameter,
    which [unit] binds to the new instance. *)
Definition first_parameter_modifier (prototype : gmap string pentry)
  : mvalue -> mvalue -> outcome mvalue :=
  fun m _ => js_add prototype m (MPlain (VString " - modified")).

(** [function (value) { return value + ' - lifted'; }] *)
Definition test_lifted (prototype : gmap string pentry) : mfun :=
  fun arguments =>
    js_add prototype (hd (MPlain VUndefined) arguments) (MPlain (VString " - lifted")).

(** A function that ignores its arguments and returns the string [s]. *)
Definition constant_mfun (s : string) : mfun := fun _ => Ret (MPlain (VString s)).

(** * Properties *)

(** ** Sequencing *)

Lemma bind_Ret_inv {A B : Type} (m : outcome A) (f : A -> outcome B) (b : B) :
  m ≫= f = Ret b -> exists a, m = Ret a /\ f a = Ret b.
Proof.
  unfold mbind, outcome_mbind. destruct m as [a| | |]; simpl; try discriminate.
  intros H. exists a. auto.
Qed.

Lemma bind_Ret {A B : Type} (m : outcome A) (f : A -> outcome B) (a : A) :
  m = Ret a -> m ≫= f = f a.
Proof. intros ->. reflexivity. Qed.

(** ** clone on primitives *)

Lemma clone_primitive n h v :
  is_primitive v = true -> v <> VNull ->
  clone (S n) h v = Ret (h ++ [CObject []], v).
Proof. destruct v; simpl; intros Hp Hn; congruence. Qed.

(** C2: [clone(null)] does not return [null]: with any fuel the call ends
    in a [TypeError], because [typeof null === 'object'] sends [null]
    into the object branch, where [Object.keys(null)] throws. *)
Theorem clone_null_throws n h : clone (S n) h VNull = Throw TypeError.
Proof. reflexivity. Qed.

(** ** Property lists and heap writes *)

Lemma get_prop_set_prop k v ps k' :
  get_prop k' (set_prop k v ps) = if String.eqb k' k then v else get_prop k' ps.
Proof.
  induction ps as [|[k0 v0] ps IH]; simpl.
  - destruct (String.eqb k' k); reflexivity.
  - destruct (String.eqb_spec k k0) as [->|Hne]; simpl.
    + destruct (String.eqb k' k0); reflexivity.
    + destruct (String.eqb_spec k' k0) as [->|Hne'].
      * destruct (String.eqb_spec k0 k) as [->|_]; [congruence|reflexivity].
      * exact IH.
Qed.

Lemma set_prop_keys k v ps k' :
  k' ∈ (set_prop k v ps).*1 <-> k' = k \/ k' ∈ ps.*1.
Proof.
  induction ps as [|[k0 v0] ps IH]; simpl.
  - rewrite list_elem_of_singleton. split; [auto|]. intros [H|H]; [exact H|].
    inversion H.
  - destruct (String.eqb_spec k k0) as [->|Hne]; simpl.
    + rewrite !elem_of_cons. tauto.
    + rewrite !elem_of_cons, IH. tauto.
Qed.

Lemma set_prop_fresh k v ps :
  k ∉ ps.*1 -> set_prop k v ps = ps ++ [(k, v)].
Proof.
  induction ps as [|[k0 v0] ps IH]; simpl; intros Hk; [reflexivity|].
  rewrite not_elem_of_cons in Hk. destruct Hk as [Hne Hk].
  destruct (String.eqb_spec k k0) as [->|_]; [congruence|].
  rewrite IH; [reflexivity|assumption].
Qed.



Lemma store_prop_object o k v h ps :
  h !! o = Some (CObject ps) ->
  store_prop o k v h = Ret (<[o := CObject (set_prop k v ps)]> h).
Proof. unfold store_prop. intros ->. reflexivity. Qed.

Lemma prefix_insert_ge (h0 h : heap) o c :
  h0 `prefix_of` h -> length h0 <= o -> h0 `prefix_of` <[o := c]> h.
Proof.
  intros [e ->] Ho. exists (<[o - length h0 := c]> e).
  apply insert_app_r_alt. exact Ho.
Qed.

(** ** clone only allocates *)

Section ClonePrefix.
Variable cl : heap -> value -> outcome (heap * value).
Hypothesis cl_prefix : forall h v h' r, cl h v = Ret (h', r) -> h `prefix_of` h'.

Lemma map_clone_prefix es : forall h h' rs,
  map_clone cl h es = Ret (h', rs) -> h `prefix_of` h'.
Proof.
  induction es as [|e es IH]; intros h h' rs H; simpl in H.
  - injection H as <- _. reflexivity.
  - apply bind_Ret_inv in H as ([h1 r] & Hcl & H).
    apply bind_Ret_inv in H as ([h2 rs'] & Hrest & H).
    injection H as <- _.
    etrans; [eapply cl_prefix, Hcl|eapply IH, Hrest].
Qed.

(** The property writes of [clone_props] all go to [cloneObj]: a prefix
    of the heap that ends before it is kept, and [cloneObj] stays an
    object. *)
Lemma clone_props_prefix (h0 : heap) cloneObj ps : forall h h' acc,
  length h0 <= cloneObj ->
  h0 `prefix_of` h -> h !! cloneObj = Some (CObject acc) ->
  clone_props cl cloneObj h ps = Ret h' ->
  h0 `prefix_of` h' /\ exists acc', h' !! cloneObj = Some (CObject acc').
Proof.
  induction ps as [|[k v] ps IH]; intros h h' acc Ho Hpre Hacc H; simpl in H.
  - injection H as <-. eauto.
  - apply bind_Ret_inv in H as ([h1 r] & Hcl & H).
    apply bind_Ret_inv in H as (h2 & Hst & H).
    apply cl_prefix in Hcl.
    pose proof (prefix_lookup_Some _ _ _ _ Hacc Hcl) as Hacc1.
    rewrite (store_prop_object _ _ _ _ _ Hacc1) in Hst. injection Hst as <-.
    eapply (IH _ _ (set_prop k r acc)); [exact Ho| | |exact H].
    + apply prefix_insert_ge; [|exact Ho]. etrans; eassumption.
    + apply list_lookup_insert_eq. eapply lookup_lt_Some, Hacc1.
Qed.
End ClonePrefix.

Lemma clone_prefix n : forall h v h' r,
  clone n h v = Ret (h', r) -> h `prefix_of` h'.
Proof.
  induction n as [|n IH]; intros h v h' r H; [discriminate|].
  simpl in H.
  assert (Hh0 : h `prefix_of` h ++ [CObject []]) by (by apply prefix_app_r).
  destruct v as [| |b|x|s|l]; try (injection H as <- _; exact Hh0); [discriminate|].
  destruct (h !! l) as [[es|ps|c]|] eqn:Hl; try discriminate.
  - apply bind_Ret_inv in H as ([h2 rs] & Hmap & H). injection H as <- _.
    apply map_clone_prefix in Hmap; [|exact IH].
    apply prefix_insert_ge.
    + etrans; [|exact Hmap]. rewrite <- (assoc_L (++)). by apply prefix_app_r.
    + rewrite length_app. simpl. lia.
  - apply bind_Ret_inv in H as (h2 & Hprops & H). injection H as <- _.
    eapply (clone_props_prefix _ IH h) in Hprops as [Hp _]; [exact Hp|lia|exact Hh0|].
    rewrite lookup_app_r, Nat.sub_diag; [reflexivity|lia].
  - injection H as <- _. exact Hh0.
Qed.

(** Cloning an object returns the [cloneObj] of the call, a new object. *)
Lemma clone_object n h l ps h' r :
  h !! l = Some (CObject ps) -> clone n h (VRef l) = Ret (h', r) ->
  r = VRef (length h) /\ exists cps, h' !! length h = Some (CObject cps).
Proof.
  intros Hl H. destruct n as [|n]; [discriminate|]. simpl in H. rewrite Hl in H.
  apply bind_Ret_inv in H as (h2 & Hprops & H). injection H as <- <-.
  split; [reflexivity|].
  eapply (clone_props_prefix _ (clone_prefix n) h) in Hprops as [_ Hobj];
    [exact Hobj|lia|by apply prefix_app_r|].
  rewrite lookup_app_r, Nat.sub_diag; [reflexivity|lia].
Qed.

(** ** Unfolding a value in a larger heap *)

Lemma prefix_agree b (h h' : heap) : h `prefix_of` h' -> agree b h h'.
Proof. intros Hpre l c Hl _. eapply prefix_lookup_Some; eassumption. Qed.

(** A write to a cell that is below [b] and not a function is not seen
    from [b] on. *)
Lemma insert_agree b (h : heap) o c c' :
  h !! o = Some c -> (forall code, c <> CFunction code) -> o < b ->
  agree b h (<[o := c']> h).
Proof.
  intros Ho Hnf Hlt l x Hl Hcase.
  destruct (decide (l = o)) as [->|Hne].
  - rewrite Ho in Hl. injection Hl as <-.
    destruct Hcase as [Hle|[code ->]]; [lia|by destruct (Hnf code)].
  - rewrite list_lookup_insert_ne; [exact Hl|congruence].
Qed.

Lemma agree_trans b (h1 h2 h3 : heap) :
  agree b h1 h2 -> agree b h2 h3 -> agree b h1 h3.
Proof. intros H12 H23 l c Hl Hcase. apply H23; [apply H12|]; assumption. Qed.

Lemma reify_from_agree n : forall b (h h' : heap) v t,
  agree b h h' -> reify_from b n h v = Some t -> reify_from b n h' v = Some t.
Proof.
  induction n as [|n IH]; intros b h h' v t Hag H; [discriminate|].
  destruct v as [| |x|x|s|l]; try exact H.
  simpl in H |- *.
  destruct (h !! l) as [[es|ps|code]|] eqn:Hl; try discriminate.
  - destruct (decide (b <= l)) as [Hle|]; [|discriminate].
    rewrite (Hag l _ Hl (or_introl Hle)).
    apply fmap_Some in H as (ts & Hts & ->). apply fmap_Some. exists ts.
    split; [|reflexivity].
    apply mapM_Some. apply mapM_Some in Hts.
    eapply Forall2_impl; [exact Hts|]. intros e t He. eapply IH; eassumption.
  - destruct (decide (b <= l)) as [Hle|]; [|discriminate].
    rewrite (Hag l _ Hl (or_introl Hle)).
    apply fmap_Some in H as (pts & Hpts & ->). apply fmap_Some. exists pts.
    split; [|reflexivity].
    apply mapM_Some. apply mapM_Some in Hpts.
    eapply Forall2_impl; [exact Hpts|]. intros p q Hp. cbn beta in Hp |- *.
    apply fmap_Some in Hp as (t & Ht & ->). apply fmap_Some. exists t.
    split; [|reflexivity]. eapply IH; eassumption.
  - rewrite (Hag l _ Hl (or_intror (ex_intro _ code eq_refl))). exact H.
Qed.

Lemma reify_from_le n : forall b b' (h : heap) v t,
  b' <= b -> reify_from b n h v = Some t -> reify_from b' n h v = Some t.
Proof.
  induction n as [|n IH]; intros b b' h v t Hle H; [discriminate|].
  destruct v as [| |x|x|s|l]; try exact H.
  simpl in H |- *.
  destruct (h !! l) as [[es|ps|code]|] eqn:Hl; try discriminate.
  - destruct (decide (b <= l)) as [Hbl|]; [|discriminate].
    rewrite decide_True by lia.
    apply fmap_Some in H as (ts & Hts & ->). apply fmap_Some. exists ts.
    split; [|reflexivity].
    apply mapM_Some. apply mapM_Some in Hts.
    eapply Forall2_impl; [exact Hts|]. intros e t He. eapply IH; eassumption.
  - destruct (decide (b <= l)) as [Hbl|]; [|discriminate].
    rewrite decide_True by lia.
    apply fmap_Some in H as (pts & Hpts & ->). apply fmap_Some. exists pts.
    split; [|reflexivity].
    apply mapM_Some. apply mapM_Some in Hpts.
    eapply Forall2_impl; [exact Hpts|]. intros p q Hp. cbn beta in Hp |- *.
    apply fmap_Some in Hp as (t & Ht & ->). apply fmap_Some. exists t.
    split; [|reflexivity]. eapply IH; eassumption.
  - exact H.
Qed.

(** Whatever is reached from a value that unfolds from [b] on is a
    function or a cell from [b] on, and is in the heap. *)
Lemma reachable_reify_from (h : heap) v l :
  reachable h v l -> forall n b t, reify_from b n h v = Some t ->
  is_Some (h !! l) /\ (b <= l \/ is_function h l).
Proof.
  induction 1 as [l|l es e l' Hl He _ IH|l ps k v l' Hl Hp _ IH];
    intros n b t H; (destruct n as [|n]; [discriminate|]); simpl in H.
  - destruct (h !! l) as [[es|ps|code]|] eqn:Hl; try discriminate;
      (split; [eauto|]).
    + destruct (decide (b <= l)); [auto|discriminate].
    + destruct (decide (b <= l)); [auto|discriminate].
    + right. exists code. exact Hl.
  - rewrite Hl in H. destruct (decide (b <= l)); [|discriminate].
    apply fmap_Some in H as (ts & Hts & _). apply mapM_Some in Hts.
    apply list_elem_of_lookup in He as [i Hi].
    destruct (Forall2_lookup_l _ _ _ _ _ Hts Hi) as (t' & _ & Ht').
    eapply IH, Ht'.
  - rewrite Hl in H. destruct (decide (b <= l)); [|discriminate].
    apply fmap_Some in H as (pts & Hpts & _). apply mapM_Some in Hpts.
    apply list_elem_of_lookup in Hp as [i Hi].
    destruct (Forall2_lookup_l _ _ _ _ _ Hpts Hi) as (q & _ & Hq).
    cbn in Hq. apply fmap_Some in Hq as (t' & Ht' & _).
    eapply IH, Ht'.
Qed.

(** ** clone copies what has no null *)

Section CloneCopy.
Variable n : nat.
Hypothesis clone_n : forall (h : heap) v t,
  reify n h v = Some t -> null_free t = true -> keys_distinct t = true ->
  exists h' r, clone n h v = Ret (h', r) /\ reify_from (length h) n h' r = Some t.

(** The elements of an array of the heap [h0], cloned in a later heap. *)
Lemma map_clone_copy (h0 : heap) es : forall ts (h : heap),
  h0 `prefix_of` h ->
  Forall2 (fun e t => reify n h0 e = Some t) es ts ->
  Forall (fun t => null_free t = true) ts ->
  Forall (fun t => keys_distinct t = true) ts ->
  exists h' rs,
    map_clone (clone n) h es = Ret (h', rs) /\ h `prefix_of` h' /\
    Forall2 (fun r t => reify_from (length h) n h' r = Some t) rs ts.
Proof.
  induction es as [|e es IHes]; intros ts h Hpre Hes Hnf Hkd.
  - apply Forall2_nil_inv_l in Hes as ->. exists h, []. simpl. auto.
  - apply Forall2_cons_inv_l in Hes as (t & ts' & Ht & Hes & ->).
    apply Forall_cons in Hnf as [Hnf Hnfs]. apply Forall_cons in Hkd as [Hkd Hkds].
    destruct (clone_n h e t) as (h1 & r & Hcl & Hr); [|exact Hnf|exact Hkd|].
    { eapply reify_from_agree; [apply prefix_agree, Hpre|exact Ht]. }
    pose proof (clone_prefix _ _ _ _ _ Hcl) as Hp1.
    destruct (IHes ts' h1) as (h' & rs & Hmap & Hp2 & Hrs);
      [etrans; eassumption|exact Hes|exact Hnfs|exact Hkds|].
    exists h', (r :: rs). cbn [map_clone].
    rewrite (bind_Ret _ _ _ Hcl). cbn beta iota. rewrite (bind_Ret _ _ _ Hmap).
    split; [reflexivity|]. split; [etrans; eassumption|].
    constructor.
    + eapply reify_from_agree; [apply prefix_agree, Hp2|exact Hr].
    + eapply Forall2_impl; [exact Hrs|]. intros r' t' Hr'.
      eapply reify_from_le; [|exact Hr']. apply prefix_length, Hp1.
Qed.

(** The properties of an object of the heap [h0], cloned into [o]; [acc]
    holds the properties that [o] has so far. *)
Lemma clone_props_copy (h0 : heap) o ps : forall pts (h : heap) acc accts,
  h0 `prefix_of` h -> length h0 <= o ->
  h !! o = Some (CObject acc) ->
  Forall2 (fun p q => p.1 = q.1 /\ reify n h0 p.2 = Some q.2) ps pts ->
  Forall2 (fun a q => a.1 = q.1 /\ reify_from (S o) n h a.2 = Some q.2) acc accts ->
  NoDup (acc.*1 ++ ps.*1) ->
  Forall (fun q => null_free q.2 = true) pts ->
  Forall (fun q => keys_distinct q.2 = true) pts ->
  exists h' acc',
    clone_props (clone n) o h ps = Ret h' /\
    h' !! o = Some (CObject acc') /\
    Forall2 (fun a q => a.1 = q.1 /\ reify_from (S o) n h' a.2 = Some q.2)
            acc' (accts ++ pts).
Proof.
  induction ps as [|[k v] ps IHps]; intros pts h acc accts Hpre Ho Hacc Hps Hinv Hnd Hnf Hkd.
  - apply Forall2_nil_inv_l in Hps as ->. exists h, acc. rewrite app_nil_r. auto.
  - apply Forall2_cons_inv_l in Hps as ([k' t] & pts' & [Hk Ht] & Hps & ->).
    cbn in Hk, Ht. subst k'.
    apply Forall_cons in Hnf as [Hnf Hnfs]. apply Forall_cons in Hkd as [Hkd Hkds].
    cbn in Hnf, Hkd.
    destruct (clone_n h v t) as (h1 & r & Hcl & Hr); [|exact Hnf|exact Hkd|].
    { eapply reify_from_agree; [apply prefix_agree, Hpre|exact Ht]. }
    pose proof (clone_prefix _ _ _ _ _ Hcl) as Hp1.
    pose proof (prefix_lookup_Some _ _ _ _ Hacc Hp1) as Hacc1.
    assert (Hfresh : k ∉ acc.*1).
    { apply NoDup_app in Hnd as (_ & Hdis & _). intros Hin.
      apply (Hdis k Hin). simpl. apply list_elem_of_here. }
    assert (Hag : agree (S o) h (<[o := CObject (acc ++ [(k, r)])]> h1)).
    { eapply agree_trans; [apply prefix_agree, Hp1|].
      eapply insert_agree; [exact Hacc1|discriminate|lia]. }
    destruct (IHps pts' (<[o := CObject (acc ++ [(k, r)])]> h1)
                (acc ++ [(k, r)]) (accts ++ [(k, t)]))
      as (h' & acc' & Hrun & Hacc' & Hinv'); [..|exact Hnfs|exact Hkds|].
    + apply prefix_insert_ge; [etrans; eassumption|exact Ho].
    + exact Ho.
    + apply list_lookup_insert_eq. eapply lookup_lt_Some, Hacc1.
    + exact Hps.
    + apply Forall2_app.
      * eapply Forall2_impl; [exact Hinv|]. intros a q [Ha Hq]. split; [exact Ha|].
        eapply reify_from_agree; [exact Hag|exact Hq].
      * constructor; [|constructor]. split; [reflexivity|]. cbn.
        eapply reify_from_agree.
        -- eapply insert_agree; [exact Hacc1|discriminate|lia].
        -- eapply reify_from_le; [|exact Hr]. apply lookup_lt_Some in Hacc. lia.
    + rewrite fmap_app. cbn. rewrite <- (assoc_L (++)). exact Hnd.
    + exists h', acc'. cbn [clone_props].
      rewrite (bind_Ret _ _ _ Hcl). cbn beta iota.
      rewrite (bind_Ret _ _ _ (store_prop_object _ k r _ _ Hacc1)).
      rewrite (set_prop_fresh _ _ _ Hfresh).
      split; [exact Hrun|]. split; [exact Hacc'|].
      rewrite <- (assoc_L (++)) in Hinv'. exact Hinv'.
Qed.
End CloneCopy.

Lemma clone_copy n : forall (h : heap) v t,
  reify n h v = Some t -> null_free t = true -> keys_distinct t = true ->
  exists h' r, clone n h v = Ret (h', r) /\ reify_from (length h) n h' r = Some t.
Proof.
  induction n as [|n IH]; intros h v t H Hnf Hkd; [discriminate|].
  assert (Hh0 : h `prefix_of` h ++ [CObject []]) by (by apply prefix_app_r).
  destruct v as [| |x|x|s|l];
    try (exists (h ++ [CObject []]); eexists; split; [reflexivity|exact H]).
  { injection H as <-. discriminate. }
  unfold reify in H. simpl in H. cbn [clone alloc].
  destruct (h !! l) as [[es|ps|code]|] eqn:Hl; try discriminate.
  - (* an array *)
    apply fmap_Some in H as (ts & Hts & ->). apply mapM_Some in Hts.
    cbn [null_free keys_distinct] in Hnf, Hkd.
    apply Is_true_true_2, forallb_True in Hnf.
    apply Is_true_true_2, forallb_True in Hkd.
    set (h1 := (h ++ [CObject []]) ++ [CArray []]).
    set (a := length (h ++ [CObject []])).
    destruct (map_clone_copy n IH h es ts h1) as (h2 & rs & Hmap & Hp2 & Hrs).
    { subst h1. rewrite <- (assoc_L (++)). by apply prefix_app_r. }
    { exact Hts. }
    { eapply Forall_impl; [exact Hnf|]. intros t Ht. apply Is_true_true_1, Ht. }
    { eapply Forall_impl; [exact Hkd|]. intros t Ht. apply Is_true_true_1, Ht. }
    assert (Ha1 : h1 !! a = Some (CArray [])).
    { subst h1 a. rewrite lookup_app_r, Nat.sub_diag; [reflexivity|lia]. }
    pose proof (prefix_lookup_Some _ _ _ _ Ha1 Hp2) as Ha2.
    assert (Hlen1 : length h1 = S a).
    { subst h1 a. rewrite !length_app. simpl. lia. }
    assert (Hla : length h <= a) by (subst a; rewrite length_app; lia).
    exists (<[a := CArray rs]> h2), (VRef a).
    rewrite (bind_Ret _ _ _ Hmap). split; [reflexivity|].
    simpl. rewrite list_lookup_insert_eq by (eapply lookup_lt_Some, Ha2).
    rewrite decide_True by exact Hla.
    apply fmap_Some. exists ts. split; [|reflexivity]. apply mapM_Some.
    eapply Forall2_impl; [exact Hrs|]. intros r t Hr. cbn.
    eapply reify_from_le; [|eapply reify_from_agree; [|exact Hr]].
    + lia.
    + eapply insert_agree; [exact Ha2|discriminate|lia].
  - (* an object *)
    apply fmap_Some in H as (pts & Hpts & ->). apply mapM_Some in Hpts.
    cbn [null_free keys_distinct] in Hnf, Hkd.
    apply andb_prop in Hkd as [Hnd Hkd]. apply bool_decide_eq_true in Hnd.
    apply Is_true_true_2, forallb_True in Hnf.
    apply Is_true_true_2, forallb_True in Hkd.
    assert (Hpq : Forall2 (fun p q => p.1 = q.1 /\ reify n h p.2 = Some q.2) ps pts).
    { eapply Forall2_impl; [exact Hpts|]. intros p q Hq. cbn in Hq.
      apply fmap_Some in Hq as (t & Ht & ->). auto. }
    assert (Hkeys : ps.*1 = pts.*1).
    { clear -Hpq. induction Hpq as [|p q ps pts [Hk _] _ IHp]; [reflexivity|].
      cbn. rewrite Hk, IHp. reflexivity. }
    destruct (clone_props_copy n IH h (length h) ps pts (h ++ [CObject []]) [] [])
      as (h2 & acc & Hrun & Hacc & Hinv).
    { exact Hh0. }
    { lia. }
    { rewrite lookup_app_r, Nat.sub_diag; [reflexivity|lia]. }
    { exact Hpq. }
    { constructor. }
    { simpl. rewrite Hkeys. exact Hnd. }
    { eapply Forall_impl; [exact Hnf|]. intros q Hq. apply Is_true_true_1, Hq. }
    { eapply Forall_impl; [exact Hkd|]. intros q Hq. apply Is_true_true_1, Hq. }
    exists h2, (VRef (length h)).
    rewrite (bind_Ret _ _ _ Hrun). split; [reflexivity|].
    simpl. rewrite Hacc. rewrite decide_True by lia.
    apply fmap_Some. exists pts. split; [|reflexivity]. apply mapM_Some.
    simpl in Hinv.
    eapply Forall2_impl; [exact Hinv|]. intros a q [Ha Hq]. cbn.
    apply fmap_Some. exists q.2. split.
    + eapply reify_from_le; [|exact Hq]. lia.
    + rewrite Ha. destruct q; reflexivity.
  - (* a function *)
    exists (h ++ [CObject []]), (VRef l). split; [reflexivity|].
    injection H as <-. simpl.
    rewrite (lookup_app_l_Some _ _ _ _ Hl). reflexivity.
Qed.



(** ** clone and null *)

Lemma clone_null_not_Ret n h res : clone n h VNull <> Ret res.
Proof. destruct n; discriminate. Qed.

Lemma map_clone_each cl es : forall h h' rs e,
  map_clone cl h es = Ret (h', rs) -> e ∈ es ->
  exists h1 res, cl h1 e = Ret res.
Proof.
  induction es as [|e0 es IH]; intros h h' rs e H He; [by apply elem_of_nil in He|].
  simpl in H.
  apply bind_Ret_inv in H as ([h1 r] & Hcl & H).
  apply bind_Ret_inv in H as ([h2 rs'] & Hrest & _).
  apply elem_of_cons in He as [->|He]; [eauto|].
  eapply IH; eassumption.
Qed.

Lemma clone_props_each cl o ps : forall h h' k v,
  clone_props cl o h ps = Ret h' -> (k, v) ∈ ps ->
  exists h1 res, cl h1 v = Ret res.
Proof.
  induction ps as [|[k0 v0] ps IH]; intros h h' k v H Hin; [by apply elem_of_nil in Hin|].
  simpl in H.
  apply bind_Ret_inv in H as ([h1 r] & Hcl & H).
  apply bind_Ret_inv in H as (h2 & _ & Hrest).
  apply elem_of_cons in Hin as [Heq|Hin]; [injection Heq as -> ->; eauto|].
  eapply IH; eassumption.
Qed.

(** C1: an array with a [null] element and an object with a [null]
    property are values without functions and without cycles through
    that element, yet [clone] never returns a copy of them, whatever the
    fuel: the inner call [clone(null)] does not return (it throws the
    [TypeError] of C2), so neither does the outer one. *)
Theorem clone_null_inside_never_returns (n : nat) (h : heap) (l : loc)
    (res : heap * value) :
  (exists es, h !! l = Some (CArray es) /\ VNull ∈ es) \/
  (exists ps k, h !! l = Some (CObject ps) /\ (k, VNull) ∈ ps) ->
  clone n h (VRef l) <> Ret res.
Proof.
  intros Hnull H. destruct n as [|n]; [discriminate|]. simpl in H.
  destruct Hnull as [(es & Hl & Hin)|(ps & k & Hl & Hin)]; rewrite Hl in H.
  - apply bind_Ret_inv in H as ([h2 rs] & Hmap & _).
    destruct (map_clone_each _ _ _ _ _ _ Hmap Hin) as (h1 & res1 & Hcl).
    exact (clone_null_not_Ret _ _ _ Hcl).
  - apply bind_Ret_inv in H as (h2 & Hprops & _).
    destruct (clone_props_each _ _ _ _ _ _ _ Hprops Hin) as (h1 & res1 & Hcl).
    exact (clone_null_not_Ret _ _ _ Hcl).
Qed.

(** The object [{ a: null }]: the copy that the specification promises
    is not what [clone] produces, which is a [TypeError]. *)
Lemma clone_null_inside_never_returns_witness :
  clone 2 [CObject [("a", VNull)]] (VRef 0)
    <> Ret ([CObject [("a", VNull)]; CObject [("a", VNull)]], VRef 1) /\
  clone 2 [CObject [("a", VNull)]] (VRef 0) = Throw TypeError.
Proof.
  split; [|reflexivity].
  apply (clone_null_inside_never_returns 2 [CObject [("a", VNull)]] 0).
  right. exists [("a", VNull)], "a". split; [reflexivity|].
  apply list_elem_of_here.
Defined.

(** ** merge *)

(** The overrides are written one by one into the object [o]; in the end
    [o] has the keys of both, with the values of the overrides first. *)
Lemma assign_props_object o ops : forall (h : heap) cps,
  h !! o = Some (CObject cps) -> NoDup ops.*1 ->
  exists mps,
    assign_props (VRef o) h ops = Ret (<[o := CObject mps]> h) /\
    (forall k, k ∈ mps.*1 <-> k ∈ cps.*1 \/ k ∈ ops.*1) /\
    (forall k, get_prop k mps
               = if bool_decide (k ∈ ops.*1) then get_prop k ops else get_prop k cps).
Proof.
  induction ops as [|[k v] ops IH]; intros h cps Ho Hnd.
  - exists cps. simpl. rewrite (list_insert_id _ _ _ Ho). split; [reflexivity|].
    split; intros k.
    + rewrite elem_of_nil. tauto.
    + reflexivity.
  - simpl in Hnd. apply NoDup_cons in Hnd as [Hk Hnd].
    cbn [assign_props assign].
    rewrite (bind_Ret _ _ _ (store_prop_object _ k v _ _ Ho)).
    destruct (IH (<[o := CObject (set_prop k v cps)]> h) (set_prop k v cps))
      as (mps & Hrun & Hkeys & Hget); [|exact Hnd|].
    { apply list_lookup_insert_eq. eapply lookup_lt_Some, Ho. }
    exists mps. rewrite Hrun, list_insert_insert_eq. split; [reflexivity|].
    split; intros k'.
    + rewrite Hkeys, set_prop_keys. simpl. rewrite elem_of_cons. tauto.
    + rewrite Hget, get_prop_set_prop. simpl.
      destruct (String.eqb_spec k' k) as [->|Hne].
      * rewrite (bool_decide_eq_false_2 _ Hk).
        rewrite bool_decide_eq_true_2; [reflexivity|apply elem_of_cons; auto].
      * destruct (decide (k' ∈ ops.*1)) as [Hin|Hnin].
        -- rewrite !bool_decide_eq_true_2; [reflexivity|apply elem_of_cons; auto|exact Hin].
        -- rewrite !bool_decide_eq_false_2; [reflexivity| |exact Hnin].
           rewrite elem_of_cons. tauto.
Qed.



(** ** generateScale *)

(** C8: the scale built by [generateScale(5, 10, 0, 10)] sends 4 and 5 to
    0, 7.5 strictly between 0 and 10, and 10 and 11 to 10. *)
Theorem generateScale_5_10_0_10 :
  let scale := generateScale 5 10 0 10 in
  scale 4%float = 0%float /\
  scale 5%float = 0%float /\
  ((0 <? scale 7.5)%float = true /\ (scale 7.5 <? 10)%float = true) /\
  scale 10%float = 10%float /\
  scale 11%float = 10%float.
Proof. vm_compute. repeat split. Qed.

(** ** slice and reduce *)

(** [slice(arr, ...)] is the method call [arr.slice(...)]. *)
Lemma slice_is_method (array_slice : builtin) arr args h :
  slice array_slice (arr :: args) h = method_slice array_slice arr args h.
Proof. reflexivity. Qed.

(** The result of [reduce] does not depend on the array it is given. *)
Lemma reduce_forgets_array arr1 arr2 f z h :
  reduce [arr1; f; z] h = reduce [arr2; f; z] h.
Proof. destruct f; reflexivity. Qed.

(** C9: [reduce(arr, f, z)] is not [arr.reduce(f, z)].  [reduce] is bound
    to the [Array] constructor, so the call is [Array.call(arr, f, z)]:
    it never reads [arr], never calls [f], and returns a new two-element
    array holding [f] and [z].  For [[1, 2, 3]], the sum and [0] the
    method gives [6] and [reduce] the array [[f, 0]]. *)
Theorem reduce_builds_pair :
  (forall (h : heap) (arr f z : value),
      reduce [arr; f; z] h = Ret (h ++ [CArray [f; z]], VRef (length h))) /\
  (let h := [CArray [VNumber 1; VNumber 2; VNumber 3]; CFunction 0] in
   Array_prototype_reduce call_add (VRef 0) [VRef 1; VNumber 0] h
     = Ret (h, VNumber 6) /\
   reduce [VRef 0; VRef 1; VNumber 0] h
     = Ret (h ++ [CArray [VRef 1; VNumber 0]], VRef 2)).
Proof.
  split; [intros h arr f z; destruct f; reflexivity|].
  split; reflexivity.
Qed.

(** ** existy and dispatch *)

Lemma existy_spec v : existy v = false <-> v = VNull \/ v = VUndefined.
Proof. destruct v; simpl; split; intros; try discriminate; intuition discriminate. Qed.

Example existy_tests :
  existy VNull = false /\ existy VUndefined = false /\
  existy (VNumber 0) = true /\ existy (VString EmptyString) = true /\
  existy (VBool false) = true.
Proof. repeat split. Qed.

Lemma last_cons_any {A : Type} (l : list A) : forall x d d',
  List.last (x :: l) d = List.last (x :: l) d'.
Proof.
  induction l as [|y l IH]; intros x d d'; [reflexivity|].
  change (List.last (y :: l) d = List.last (y :: l) d'). apply IH.
Qed.

Section DispatchFacts.
Context {W : Type}.
Implicit Types (fns pre post : list (jsfun W)) (fn : jsfun W) (s : W).

(** A prefix of handlers that all return non-existy values is run
    through, and the loop goes on with the state they leave and the
    last value they returned. *)
Lemma dispatch_loop_skip pre : forall post target args ret s s1 rs,
  invoke_all pre (target :: args) s = Ret (s1, rs) ->
  Forall (fun r => existy r = false) rs ->
  dispatch_loop (pre ++ post) target args ret s
  = dispatch_loop post target args (List.last rs ret) s1.
Proof.
  induction pre as [|fn pre IH]; intros post target args ret s s1 rs Hall Hne.
  - simpl in Hall. injection Hall as <- <-. reflexivity.
  - simpl in Hall. simpl.
    unfold mbind, outcome_mbind in *.
    destruct (fn (target :: args) s) as [[s' r]| | |] eqn:Hfn; simpl in *; try discriminate.
    destruct (invoke_all pre (target :: args) s') as [[s'' rs']| | |] eqn:Hrest;
      simpl in *; try discriminate.
    injection Hall as <- <-.
    apply Forall_cons in Hne as [Hr Hrs]. rewrite Hr.
    rewrite (IH post target args r s' s'' rs' Hrest Hrs).
    f_equal. destruct rs' as [|v rs']; [reflexivity|].
    change (List.last (v :: rs') r = List.last (v :: rs') ret).
    apply last_cons_any.
Qed.
End DispatchFacts.

(** C5: [dispatch(fn1, ..., fnN)(target, ...args)] calls the handlers in
    order with [(target, ...args)].  (1) When the handlers before [fn]
    all return non-existy values and [fn] returns an existy [r], the
    call returns [r] in the state reached by invoking exactly those
    handlers and then [fn]: all of them ran, none of the later ones did.
    (2) When every handler returns a non-existy value, the call returns
    the value of the last one ([undefined] when there is no handler), in
    the state reached by invoking them all. *)
Theorem dispatch_first_existy {W : Type} (target : value) (args : list value) :
  (forall (pre post : list (jsfun W)) (fn : jsfun W) (s s1 s2 : W) rs r,
      invoke_all pre (target :: args) s = Ret (s1, rs) ->
      Forall (fun x => existy x = false) rs ->
      fn (target :: args) s1 = Ret (s2, r) ->
      existy r = true ->
      dispatch (pre ++ fn :: post) (target :: args) s = Ret (s2, r)) /\
  (forall (fns : list (jsfun W)) (s s1 : W) rs,
      invoke_all fns (target :: args) s = Ret (s1, rs) ->
      Forall (fun x => existy x = false) rs ->
      dispatch fns (target :: args) s = Ret (s1, List.last rs VUndefined)).
Proof.
  split.
  - intros pre post fn s s1 s2 rs r Hpre Hne Hfn Hr.
    unfold dispatch. simpl hd. simpl tl.
    rewrite (dispatch_loop_skip pre (fn :: post) target args VUndefined s s1 rs Hpre Hne).
    simpl. unfold mbind, outcome_mbind. rewrite Hfn. simpl. rewrite Hr. reflexivity.
  - intros fns s s1 rs Hall Hne.
    unfold dispatch. simpl hd. simpl tl.
    rewrite <- (app_nil_r fns).
    rewrite (dispatch_loop_skip fns [] target args VUndefined s s1 rs Hall Hne).
    reflexivity.
Qed.

(** The three handler lists of the test suite, on the call log. *)
Lemma dispatch_first_existy_witness :
  dispatch [spy 0 VNull; spy 1 (VString "MIDDLE CALLED"); spy 2 (VString "LAST CALLED")]
           [VString "TEST MIDDLE"] []
  = Ret ([0; 1], VString "MIDDLE CALLED") /\
  dispatch [spy 0 VNull; spy 1 VUndefined] [VString "TEST NONE"] []
  = Ret ([0; 1], VUndefined).
Proof.
  split.
  - apply (proj1 (dispatch_first_existy (VString "TEST MIDDLE") [])
             [spy 0 VNull] [spy 2 (VString "LAST CALLED")]
             (spy 1 (VString "MIDDLE CALLED")) [] [0] [0; 1] [VNull]).
    + reflexivity.
    + repeat constructor.
    + reflexivity.
    + reflexivity.
  - apply (proj2 (dispatch_first_existy (VString "TEST NONE") [])
             [spy 0 VNull; spy 1 VUndefined] [] [0; 1] [VNull; VUndefined]).
    + reflexivity.
    + repeat constructor.
Defined.

(** ** JSON.stringify *)

Lemma stack_bound (h : heap) (stack : list loc) :
  NoDup stack -> Forall (fun l => l < length h) stack -> length stack <= length h.
Proof.
  intros Hnd Hlt. rewrite <- (length_seq (length h) 0).
  apply submseteq_length, NoDup_submseteq; [exact Hnd|].
  intros l Hl. apply elem_of_seq. rewrite Forall_forall in Hlt.
  specialize (Hlt l Hl). lia.
Qed.

Section JSONFacts.
Variable number_to_string : float -> string.
Variable quote_json : string -> string.

Lemma serialize_elements_no_timeout ser es :
  (forall v, ser v <> Timeout) -> serialize_elements ser es <> Timeout.
Proof.
  intros Hser. induction es as [|e es IH]; simpl; [discriminate|].
  unfold mbind, outcome_mbind.
  specialize (Hser e). destruct (ser e) as [o| | |]; simpl; try discriminate; [|congruence].
  destruct (serialize_elements ser es) as [rest| | |]; simpl; try discriminate.
  congruence.
Qed.

Lemma serialize_members_no_timeout ser ps :
  (forall v, ser v <> Timeout) ->
  serialize_members quote_json ser ps <> Timeout.
Proof.
  intros Hser. induction ps as [|[k v] ps IH]; simpl; [discriminate|].
  unfold mbind, outcome_mbind.
  specialize (Hser v). destruct (ser v) as [o| | |]; simpl; try discriminate; [|congruence].
  destruct (serialize_members quote_json ser ps) as [rest| | |]; simpl;
    try discriminate.
  congruence.
Qed.

(** The stack of open containers has no repetition, so it cannot outgrow
    the heap, and the fuel given by [stringify_arguments] is never
    used up. *)
Lemma serialize_property_no_timeout n : forall (h : heap) stack v,
  NoDup stack -> Forall (fun l => l < length h) stack ->
  length h < n + length stack ->
  serialize_property number_to_string quote_json n h stack v <> Timeout.
Proof.
  induction n as [|n IH]; intros h stack v Hnd Hlt Hfuel.
  - pose proof (stack_bound h stack Hnd Hlt). lia.
  - destruct v as [| |[|]|x|s|l]; simpl; try discriminate.
    destruct (h !! l) as [[es|ps|code]|] eqn:Hl; try discriminate.
    + case_bool_decide as Hin; [discriminate|].
      unfold mbind, outcome_mbind.
      pose proof (serialize_elements_no_timeout
                    (serialize_property number_to_string quote_json n h (l :: stack)) es)
        as Hes.
      destruct (serialize_elements _ es) as [parts| | |]; simpl; try discriminate.
      intros _. apply Hes; [|reflexivity]. intros v. apply IH.
      * constructor; assumption.
      * constructor; [eapply lookup_lt_Some, Hl|exact Hlt].
      * simpl. lia.
    + case_bool_decide as Hin; [discriminate|].
      unfold mbind, outcome_mbind.
      pose proof (serialize_members_no_timeout
                    (serialize_property number_to_string quote_json n h (l :: stack)) ps)
        as Hps.
      destruct (serialize_members _ _ ps) as [parts| | |]; simpl; try discriminate.
      intros _. apply Hps; [|reflexivity]. intros v. apply IH.
      * constructor; assumption.
      * constructor; [eapply lookup_lt_Some, Hl|exact Hlt].
      * simpl. lia.
Qed.

(** [JSON.stringify(arguments)] always ends: with a key, with the
    [TypeError] of a circular structure, or on a dangling reference. *)
Lemma stringify_arguments_terminates (h : heap) arguments :
  stringify_arguments number_to_string quote_json h arguments <> Timeout.
Proof.
  unfold stringify_arguments, mbind, outcome_mbind.
  pose proof (serialize_members_no_timeout
                (serialize_property number_to_string quote_json (S (length h)) h [])
                (arguments_object arguments)) as Hps.
  destruct (serialize_members _ _ _) as [parts| | |]; simpl; try discriminate.
  intros _. apply Hps; [|reflexivity]. intros v. apply serialize_property_no_timeout.
  - constructor.
  - constructor.
  - simpl. lia.
Qed.
End JSONFacts.

(** ** memoize *)

Section MemoizeFacts.
Context {W : Type}.
Variable number_to_string : float -> string.
Variable quote_json : string -> string.
Variable heap_of : W -> heap.
Variable fn : jsfun W.

Local Abbreviation key s args :=
  (stringify_arguments number_to_string quote_json (heap_of s) args).
Local Abbreviation memoized := (_memoize number_to_string quote_json heap_of fn).
Local Abbreviation run := (memoize_calls number_to_string quote_json heap_of fn).

(** A defined entry answers the call; [fn] and the state are left alone. *)
Lemma memoize_hit memo s args k v :
  key s args = Ret k -> memo !! k = Some v -> v <> VUndefined ->
  memoized args (memo, s) = Ret ((memo, s), v).
Proof.
  intros Hk Hv Hne. unfold _memoize, mbind, outcome_mbind.
  rewrite Hk. simpl. unfold memo_get. rewrite Hv. simpl.
  destruct v; simpl; congruence.
Qed.

(** A missing or [undefined] entry makes the wrapper call [fn] and store
    what it returns. *)
Lemma memoize_miss memo s args k s1 r :
  key s args = Ret k -> typeof_undefined (memo_get memo k) = true ->
  fn args s = Ret (s1, r) ->
  memoized args (memo, s) = Ret ((<[k := r]> memo, s1), r).
Proof.
  intros Hk Hu Hfn. unfold _memoize, mbind, outcome_mbind.
  rewrite Hk. simpl. rewrite Hu, Hfn. simpl.
  unfold memo_get. rewrite lookup_insert_eq. reflexivity.
Qed.

(** Every returning call is one of the two. *)
Lemma memoize_inv memo s args memo1 s1 r :
  memoized args (memo, s) = Ret ((memo1, s1), r) ->
  exists k, key s args = Ret k /\
    ((typeof_undefined (memo_get memo k) = false /\
      memo1 = memo /\ s1 = s /\ r = memo_get memo k) \/
     (typeof_undefined (memo_get memo k) = true /\
      fn args s = Ret (s1, r) /\ memo1 = <[k := r]> memo)).
Proof.
  unfold _memoize, mbind, outcome_mbind.
  destruct (key s args) as [k| | |]; simpl; try discriminate.
  intros H. exists k. split; [reflexivity|].
  destruct (typeof_undefined (memo_get memo k)) eqn:Hu.
  - right. destruct (fn args s) as [[s' r']| | |]; simpl in H; try discriminate.
    unfold memo_get in H. rewrite lookup_insert_eq in H. simpl in H.
    injection H as <- <- <-. auto.
  - left. injection H as <- <- <-. auto.
Qed.

(** A defined entry is never overwritten. *)
Lemma memoize_keeps memo s args memo1 s1 r k v :
  memoized args (memo, s) = Ret ((memo1, s1), r) ->
  memo !! k = Some v -> v <> VUndefined -> memo1 !! k = Some v.
Proof.
  intros H Hv Hne.
  destruct (memoize_inv _ _ _ _ _ _ H) as (k' & _ & [(_ & -> & _)|(Hu & _ & ->)]);
    [assumption|].
  destruct (decide (k' = k)) as [->|Hkk].
  - unfold memo_get in Hu. rewrite Hv in Hu. destruct v; simpl in Hu; congruence.
  - rewrite lookup_insert_ne; assumption.
Qed.

Lemma memoize_calls_keep calls : forall memo s memo1 s1 rs k v,
  run calls (memo, s) = Ret ((memo1, s1), rs) ->
  memo !! k = Some v -> v <> VUndefined -> memo1 !! k = Some v.
Proof.
  induction calls as [|args calls IH]; intros memo s memo1 s1 rs k v H Hv Hne.
  - simpl in H. injection H as <- <- <-. assumption.
  - cbn [memoize_calls] in H.
    apply bind_Ret_inv in H as ([[memo' s'] r] & Hc & H).
    apply bind_Ret_inv in H as ([[memo'' s''] rs'] & Hr & H).
    injection H as <- <- <-.
    eapply IH; [exact Hr| |exact Hne].
    eapply memoize_keeps; eauto.
Qed.

(** A defined result sits in the table under the key of the call. *)
Lemma memoize_stores memo s args memo1 s1 r k :
  key s args = Ret k ->
  memoized args (memo, s) = Ret ((memo1, s1), r) ->
  r <> VUndefined -> memo1 !! k = Some r.
Proof.
  intros Hk H Hne.
  destruct (memoize_inv _ _ _ _ _ _ H) as (k' & Hk' & Hcase).
  rewrite Hk in Hk'. injection Hk' as <-.
  destruct Hcase as [(Hu & -> & _ & ->)|(_ & _ & ->)].
  - unfold memo_get in *. destruct (memo !! k) as [v|]; simpl in *; congruence.
  - apply lookup_insert_eq.
Qed.

(** An [undefined] result can only come from a call of [fn]. *)
Lemma memoize_undefined_calls memo s args memo1 s1 :
  memoized args (memo, s) = Ret ((memo1, s1), VUndefined) ->
  exists k, key s args = Ret k /\ fn args s = Ret (s1, VUndefined) /\
            memo_get memo1 k = VUndefined.
Proof.
  intros H.
  destruct (memoize_inv _ _ _ _ _ _ H) as (k & Hk & [(Hu & _ & _ & Hr)|(_ & Hfn & ->)]).
  - rewrite <- Hr in Hu. discriminate.
  - exists k. repeat split; try assumption.
    unfold memo_get. rewrite lookup_insert_eq. reflexivity.
Qed.
End MemoizeFacts.

Lemma counted_counts {W : Type} (fn : jsfun W) args st st1 r :
  counted fn args st = Ret (st1, r) -> st1.2 = S st.2.
Proof.
  unfold counted. intros H.
  apply bind_Ret_inv in H as ([s1 r1] & _ & H). injection H as <- _. reflexivity.
Qed.



(** C10: calls whose arguments serialise alike share one table entry,
    and [undefined] and functions are left out of the serialisation: a
    call without arguments, a call with [undefined] and a call with a
    function all have the key [{}].  Yet the entry does not stop [fn]
    from running again when its result is [undefined]: for [noop], the
    calls [m()] and [m(undefined)] invoke the function twice. *)
Theorem memoize_collision_reruns_undefined
    (number_to_string : float -> string) (quote_json : string -> string) :
  stringify_arguments number_to_string quote_json [CFunction 0] [] = Ret "{}" /\
  stringify_arguments number_to_string quote_json [CFunction 0] [VUndefined] = Ret "{}" /\
  stringify_arguments number_to_string quote_json [CFunction 0] [VRef 0] = Ret "{}" /\
  memoize_calls number_to_string quote_json (fun _ : () * nat => [CFunction 0])
    (counted noop) [[]; [VUndefined]] (memoize_init ((), 0))
  = Ret ((<["{}" := VUndefined]> ∅, ((), 2)), [VUndefined; VUndefined]).
Proof. repeat split. Qed.

(** ** monad *)

Section MonadFacts.
Variable h : heap.
Variable modifier : option (mvalue -> mvalue -> outcome mvalue).
Implicit Types (prototype : gmap string pentry) (fn : mfun).

(** The marker is on the prototype from the start and [lift] keeps it. *)
Lemma initial_prototype_marker : initial_prototype !! "_is_monad" = Some PMarker.
Proof. reflexivity. Qed.

Lemma lift_keeps name fn prototype prototype1 k e :
  lift name fn prototype = Ret prototype1 ->
  prototype !! k = Some e -> prototype1 !! k = Some e.
Proof.
  unfold lift. intros H Hk.
  destruct (prototype !! name) eqn:Hn; [discriminate|].
  injection H as <-. rewrite lookup_insert_ne; [assumption|].
  intros ->. congruence.
Qed.

(** With the marker in place [unit] only makes monads, hence so does
    [bind], and the wrapper of [lift] has nothing left to wrap. *)
Lemma unit_is_monad prototype value m :
  is_Some (prototype !! "_is_monad") ->
  unit modifier value = Ret m -> is_monad h prototype m = true.
Proof.
  intros [e He] H. unfold unit in H.
  apply bind_Ret_inv in H as (v & _ & H). injection H as <-.
  simpl. rewrite He. reflexivity.
Qed.

Lemma bind_is_monad prototype value fn args m :
  is_Some (prototype !! "_is_monad") ->
  bind h modifier prototype value fn args = Ret m -> is_monad h prototype m = true.
Proof.
  intros Hm H. unfold bind in H.
  apply bind_Ret_inv in H as (result & _ & H).
  destruct (is_monad h prototype result) eqn:Hr.
  - injection H as <-. exact Hr.
  - eapply unit_is_monad; eassumption.
Qed.

Lemma lifted_wrapper_is_bind prototype fn value arguments :
  is_Some (prototype !! "_is_monad") ->
  lifted_wrapper h modifier prototype fn (MInstance value) arguments
  = bind h modifier prototype value fn (Some arguments).
Proof.
  intros Hm. unfold lifted_wrapper.
  destruct (bind h modifier prototype value fn (Some arguments)) as [m| | |] eqn:Hb;
    try reflexivity.
  rewrite (bind_Ret _ _ m eq_refl).
  rewrite (bind_is_monad _ _ _ _ _ Hm Hb). reflexivity.
Qed.
End MonadFacts.

(** C6, as the specification words it: [unit] calls
    [modifier(monad, value)], so the one-parameter modifier
    [m => m + ' - modified'] receives the new instance, not ['x']; adding
    a string to it throws a [TypeError] and [monad(...)('x')] never
    yields a value. *)
Lemma monad_first_parameter_is_instance :
  let modifier := Some (first_parameter_modifier initial_prototype) in
  let run := unit modifier (MPlain (VString "x")) ≫= instance_value in
  run = Throw TypeError /\ run <> Ret (MPlain (VString "x - modified")).
Proof. split; [reflexivity|discriminate]. Qed.

(** C6, amended: with the modifier [(monad, value) => value + ' -
    modified'], (1) [monad(modifier)('x').value()] is ['x - modified'];
    (2) after [unit.lift('l', v => v + ' - lifted')], calling [l] on that
    instance and then [value()] gives ['x - modified - lifted -
    modified']; (3) whenever [fn], applied to the stored value followed
    by the arguments, returns a result that is not a monad, [bind]
    returns a new instance holding what the modifier makes of that
    result. *)
Theorem monad_modifier_reapplied (h : heap) (p : gmap string pentry) :
  let modifier := Some (test_modifier p) in
  unit modifier (MPlain (VString "x")) ≫= instance_value
    = Ret (MPlain (VString "x - modified")) /\
  (prototype1 ← lift "l" (test_lifted p) initial_prototype;
   m ← unit modifier (MPlain (VString "x"));
   m1 ← call_method h modifier prototype1 m "l" [];
   instance_value m1) = Ret (MPlain (VString "x - modified - lifted - modified")) /\
  (forall prototype value fn args result value1,
      fn (value :: default [] args) = Ret result ->
      is_monad h prototype result = false ->
      test_modifier p MFresh result = Ret value1 ->
      bind h modifier prototype value fn args = Ret (MInstance value1)).
Proof.
  intros modifier. split; [reflexivity|]. split; [reflexivity|].
  intros prototype value fn args result value1 Hfn Hnm Hmod.
  unfold bind. rewrite (bind_Ret _ _ _ Hfn). rewrite Hnm.
  unfold unit, modifier. rewrite (bind_Ret _ _ _ Hmod). reflexivity.
Qed.

Lemma monad_modifier_reapplied_witness :
  bind [] (Some (test_modifier initial_prototype)) initial_prototype
       (MPlain (VString "x - modified")) (test_lifted initial_prototype) None
  = Ret (MInstance (MPlain (VString "x - modified - lifted - modified"))).
Proof.
  apply (proj2 (proj2 (monad_modifier_reapplied [] initial_prototype))
           initial_prototype (MPlain (VString "x - modified"))
           (test_lifted initial_prototype) None
           (MPlain (VString "x - modified - lifted"))); reflexivity.
Defined.

(** C7, as the specification words it: [value] is not on the prototype,
    so lifting an operation under that name succeeds; but an instance has
    an own property [value], which is found before the prototype, and
    [m.value()] still returns the stored value instead of running the
    lifted operation. *)
Lemma lift_value_is_shadowed :
  let fn := constant_mfun "lifted" in
  let m := MInstance (MPlain (VString "x")) in
  let prototype1 := <["value" := PLifted fn]> initial_prototype in
  lift "value" fn initial_prototype = Ret prototype1 /\
  call_method [] None prototype1 m "value" [] = Ret (MPlain (VString "x")) /\
  lifted_wrapper [] None prototype1 fn m []
    = Ret (MInstance (MPlain (VString "lifted"))).
Proof. repeat split. Qed.

(** C7, amended: (1) when [name] is on the shared prototype, through the
    marker or an earlier [lift], [unit.lift(name, fn)] throws the error
    ["name" is already defined]; (2) when it is not, [lift] succeeds,
    puts [fn] on the prototype under [name], and a further [lift] of
    [name] throws; (3) after that, for every name other than the own
    properties [bind] and [value] of instances, calling [name] on any
    finished instance, whenever it was created, is [bind(fn, arguments)]
    on it. *)
Theorem lift_registers_once (h : heap)
    (modifier : option (mvalue -> mvalue -> outcome mvalue))
    (prototype : gmap string pentry) (name : string) (fn : mfun) :
  let conflict := Error (dquote +:+ name +:+ dquote +:+ " is already defined") in
  prototype !! "_is_monad" = Some PMarker ->
  (is_Some (prototype !! name) -> lift name fn prototype = Throw conflict) /\
  (prototype !! name = None ->
   exists prototype1,
     lift name fn prototype = Ret prototype1 /\
     prototype1 !! name = Some (PLifted fn) /\
     prototype1 !! "_is_monad" = Some PMarker /\
     (forall fn', lift name fn' prototype1 = Throw conflict) /\
     (name <> "bind" -> name <> "value" ->
      forall stored arguments,
        call_method h modifier prototype1 (MInstance stored) name arguments
        = bind h modifier prototype1 stored fn (Some arguments))).
Proof.
  intros conflict Hmarker. split.
  - intros [e He]. unfold lift. rewrite He. reflexivity.
  - intros Hnone. exists (<[name := PLifted fn]> prototype).
    assert (Hname : name <> "_is_monad") by (intros ->; congruence).
    assert (Hm1 : <[name := PLifted fn]> prototype !! "_is_monad" = Some PMarker)
      by (rewrite lookup_insert_ne; assumption).
    repeat split.
    + unfold lift. rewrite Hnone. reflexivity.
    + apply lookup_insert_eq.
    + exact Hm1.
    + intros fn'. unfold lift. rewrite lookup_insert_eq. reflexivity.
    + intros Hb Hv stored arguments. unfold call_method.
      destruct (String.eqb_spec name "value") as [->|_]; [congruence|].
      destruct (String.eqb_spec name "bind") as [->|_]; [congruence|].
      rewrite lookup_insert_eq.
      apply lifted_wrapper_is_bind. rewrite Hm1. eauto.
Qed.

(** The operation of the test suite, called on an instance that was
    created before the lift. *)
Lemma lift_registers_once_witness :
  let fn := test_lifted initial_prototype in
  let modifier := Some (test_modifier initial_prototype) in
  let prototype1 := <["lifted" := PLifted fn]> initial_prototype in
  lift "_is_monad" fn initial_prototype
    = Throw (Error (dquote +:+ "_is_monad" +:+ dquote +:+ " is already defined")) /\
  call_method [] modifier prototype1 (MInstance (MPlain (VString "initial value - modified")))
              "lifted" []
  = Ret (MInstance (MPlain (VString "initial value - modified - lifted - modified"))).
Proof.
  split.
  - apply (proj1 (lift_registers_once [] None initial_prototype "_is_monad"
                    (test_lifted initial_prototype) eq_refl)).
    vm_compute. eauto.
  - destruct (proj2 (lift_registers_once [] (Some (test_modifier initial_prototype))
                       initial_prototype "lifted" (test_lifted initial_prototype) eq_refl)
                eq_refl) as (prototype1 & Hlift & _ & _ & _ & Hcall).
    injection Hlift as <-.
    rewrite Hcall; [reflexivity|discriminate|discriminate].
Defined.

(** ** partial and compose *)

Lemma outcome_bind_assoc {A B C : Type} (m : outcome A) (f : A -> outcome B)
    (g : B -> outcome C) :
  (m ≫= f) ≫= g = m ≫= (fun a => f a ≫= g).
Proof. destruct m; reflexivity. Qed.

(** X9: Binding arguments in two steps is binding them all at once, in the
    same order: [partial(partial(f, ...p1), ...p2)] behaves as
    [partial(f, ...p1, ...p2)], and [partial(f)] as [f]. *)
Theorem partial_partial {W : Type} (f : jsfun W) (p1 p2 arguments : list value)
    (s : W) :
  partial (partial f p1) p2 arguments s = partial f (p1 ++ p2) arguments s /\
  partial f [] arguments s = f arguments s.
Proof. unfold partial. rewrite (assoc_L (++)). split; reflexivity. Qed.

(** X10: Composition is associative: [compose(f, compose(g, k))] and
    [compose(compose(f, g), k)] run [k], [g] and [f] in this order on the
    first argument, thread the state the same way and stop at the first
    function that does not return. *)
Theorem compose_assoc {W : Type} (f g k : jsfun W) (arguments : list value) (s : W) :
  compose f (compose g k) arguments s = compose (compose f g) k arguments s.
Proof.
  unfold compose. cbn [hd].
  destruct (k [hd VUndefined arguments] s) as [[s1 r]| | |]; reflexivity.
Qed.

(** ** Nested dispatch *)

Section DispatchNesting.
Context {W : Type}.
Implicit Types (fns inner pre post : list (jsfun W)) (s : W).

(** A loop with a handler left to try forgets the value of [ret]. *)
Lemma dispatch_loop_ret fns target args ret ret' s :
  fns <> [] ->
  dispatch_loop fns target args ret s = dispatch_loop fns target args ret' s.
Proof. destruct fns; [congruence|reflexivity]. Qed.

Lemma dispatch_loop_inner inner : forall post target args ret s,
  existy ret = false ->
  ('(s1, r1) ← dispatch_loop inner target args ret s;
   if existy r1 then Ret (s1, r1) else dispatch_loop post target args r1 s1)
  = dispatch_loop (inner ++ post) target args ret s.
Proof.
  induction inner as [|fn inner IH]; intros post target args ret s Hret.
  - simpl. rewrite Hret. reflexivity.
  - cbn [dispatch_loop app]. rewrite outcome_bind_assoc.
    destruct (fn (target :: args) s) as [[s1 r]| | |]; try reflexivity.
    rewrite !(bind_Ret _ _ (s1, r) eq_refl).
    destruct (existy r) eqn:Hr.
    + rewrite (bind_Ret _ _ (s1, r) eq_refl). rewrite Hr. reflexivity.
    + apply IH, Hr.
Qed.

Lemma dispatch_loop_tail pre : forall fns fns' target args ret s,
  (forall ret' s', dispatch_loop fns target args ret' s'
                   = dispatch_loop fns' target args ret' s') ->
  dispatch_loop (pre ++ fns) target args ret s
  = dispatch_loop (pre ++ fns') target args ret s.
Proof.
  induction pre as [|fn pre IH]; intros fns fns' target args ret s Heq; [apply Heq|].
  cbn [dispatch_loop app].
  destruct (fn (target :: args) s) as [[s1 r]| | |]; try reflexivity.
  rewrite !(bind_Ret _ _ (s1, r) eq_refl).
  destruct (existy r); [reflexivity|]. apply IH, Heq.
Qed.
End DispatchNesting.

(** X11: A dispatcher used as a handler of another one can be replaced by
    its own handlers, unless it has none and comes last: then the outer
    call ends with the [undefined] of the empty dispatcher instead of
    the value of the handler before it. *)
Theorem dispatch_flatten {W : Type} (pre inner post : list (jsfun W))
    (arguments : list value) (s : W) :
  inner <> [] \/ post <> [] ->
  dispatch (pre ++ dispatch inner :: post) arguments s
  = dispatch (pre ++ inner ++ post) arguments s.
Proof.
  intros Hne. unfold dispatch at 1 3.
  apply dispatch_loop_tail. intros ret s'.
  cbn [dispatch_loop]. unfold dispatch. cbn [hd tl].
  rewrite dispatch_loop_inner by reflexivity.
  apply dispatch_loop_ret.
  destruct Hne as [Hi|Hp]; intros Happ; apply app_eq_nil in Happ as [-> ->]; congruence.
Qed.

Lemma dispatch_flatten_witness :
  dispatch [spy 0 VNull; dispatch [spy 1 VUndefined; spy 2 (VString "MATCH")];
            spy 3 (VString "LATE")] [VString "TEST"] []
  = dispatch [spy 0 VNull; spy 1 VUndefined; spy 2 (VString "MATCH");
              spy 3 (VString "LATE")] [VString "TEST"] [].
Proof.
  apply (dispatch_flatten [spy 0 VNull] [spy 1 VUndefined; spy 2 (VString "MATCH")]
           [spy 3 (VString "LATE")] [VString "TEST"] []).
  left. discriminate.
Defined.

(** The exception: an empty dispatcher in last place changes the
    result. *)
Example dispatch_empty_last :
  dispatch [spy 0 VNull; dispatch []] [VString "TEST"] [] = Ret ([0], VUndefined) /\
  dispatch [spy 0 VNull] [VString "TEST"] [] = Ret ([0], VNull).
Proof. split; reflexivity. Qed.

(** ** values *)

Lemma get_prop_skip k0 v0 ps ks :
  k0 ∉ ks ->
  map (fun key => get_prop key ((k0, v0) :: ps)) ks
  = map (fun key => get_prop key ps) ks.
Proof.
  induction ks as [|k ks IH]; intros Hk; [reflexivity|].
  apply not_elem_of_cons in Hk as [Hne Hk]. cbn [map].
  f_equal; [|apply IH, Hk]. cbn [get_prop].
  destruct (String.eqb_spec k k0) as [->|_]; [congruence|reflexivity].
Qed.

Lemma get_prop_own_keys ps :
  NoDup ps.*1 -> map (fun key => get_prop key ps) ps.*1 = ps.*2.
Proof.
  induction ps as [|[k v] ps IH]; intros Hnd; [reflexivity|].
  cbn in Hnd. apply NoDup_cons in Hnd as [Hk Hnd].
  change (get_prop k ((k, v) :: ps)
          :: map (fun key => get_prop key ((k, v) :: ps)) ps.*1 = v :: ps.*2).
  rewrite get_prop_skip by exact Hk. rewrite (IH Hnd).
  cbn [get_prop]. rewrite String.eqb_refl. reflexivity.
Qed.

(** X4: [values(obj)] returns a new array with the values of the properties
    of [obj], one per key and in the order of the keys; the heap it
    started from is the same, with that array added. *)
Theorem values_in_key_order (h : heap) (l : loc) (ps : list (string * value)) :
  h !! l = Some (CObject ps) -> NoDup ps.*1 ->
  values h (VRef l) = Ret (h ++ [CArray ps.*2], VRef (length h)).
Proof.
  intros Hl Hnd. unfold values. cbn [own_props]. rewrite Hl.
  rewrite (bind_Ret _ _ ps eq_refl). cbn [alloc].
  rewrite (get_prop_own_keys _ Hnd). reflexivity.
Qed.

Lemma values_in_key_order_witness :
  values [CObject [("original", VString "value"); ("added", VString "stuff")]] (VRef 0)
  = Ret ([CObject [("original", VString "value"); ("added", VString "stuff")];
          CArray [VString "value"; VString "stuff"]], VRef 1).
Proof.
  apply (values_in_key_order
           [CObject [("original", VString "value"); ("added", VString "stuff")]] 0
           [("original", VString "value"); ("added", VString "stuff")]).
  - reflexivity.
  - refine (bool_decide_unpack (NoDup _) _). vm_compute. exact I.
Defined.

(** ** getIndex *)

Section GetIndexFacts.
Variable h : heap.
Variable elem : value.

Lemma getIndex_loop_found pre : forall e post elem_id arr_id i,
  get_id h elem = Ret elem_id ->
  Forall (passes h elem_id) pre ->
  get_id h e = Ret arr_id -> strict_equal elem_id arr_id = true ->
  getIndex_loop h elem (pre ++ e :: post) i
  = Ret (VNumber (number_of_nat (i + length pre))).
Proof.
  induction pre as [|e0 pre IH]; intros e post elem_id arr_id i Helem Hpre He Heq.
  - cbn [app getIndex_loop length]. rewrite (bind_Ret _ _ _ Helem), (bind_Ret _ _ _ He).
    rewrite Heq, Nat.add_0_r. reflexivity.
  - apply Forall_cons in Hpre as [(id0 & H0 & Hne) Hpre].
    cbn [app getIndex_loop length]. rewrite (bind_Ret _ _ _ Helem), (bind_Ret _ _ _ H0).
    rewrite Hne. rewrite (IH e post elem_id arr_id (S i) Helem Hpre He Heq).
    do 3 f_equal. lia.
Qed.

Lemma getIndex_loop_not_found es : forall elem_id i,
  get_id h elem = Ret elem_id ->
  Forall (passes h elem_id) es ->
  getIndex_loop h elem es i = Ret (VNumber (-1)%float).
Proof.
  induction es as [|e es IH]; intros elem_id i Helem Hes; [reflexivity|].
  apply Forall_cons in Hes as [(id0 & H0 & Hne) Hes].
  cbn [getIndex_loop]. rewrite (bind_Ret _ _ _ Helem), (bind_Ret _ _ _ H0).
  rewrite Hne. eapply IH; eassumption.
Qed.
End GetIndexFacts.

(** X5: [getIndex(arr, elem)] returns the index of the first element whose
    [id] is strictly equal to [elem.id]: when the elements before [e]
    have readable, different ids and [e] has an equal one, the result is
    the position of [e], whatever comes after it. *)
Theorem getIndex_first_match (h : heap) (l : loc) (pre post : list value)
    (e elem elem_id arr_id : value) :
  h !! l = Some (CArray (pre ++ e :: post)) ->
  get_id h elem = Ret elem_id ->
  Forall (passes h elem_id) pre ->
  get_id h e = Ret arr_id ->
  strict_equal elem_id arr_id = true ->
  getIndex h (VRef l) elem = Ret (VNumber (number_of_nat (length pre))).
Proof.
  intros Hl Helem Hpre He Heq. unfold getIndex. rewrite Hl.
  apply (getIndex_loop_found h elem pre e post elem_id arr_id 0); assumption.
Qed.

(** The array of the test suite, [{ id: 0 }, { id: 1 }], searched for an
    object with [id] 1. *)
Lemma getIndex_first_match_witness :
  getIndex [CObject [("id", VNumber 0)]; CObject [("id", VNumber 1)];
            CArray [VRef 0; VRef 1]; CObject [("id", VNumber 1)]]
           (VRef 2) (VRef 3)
  = Ret (VNumber 1).
Proof.
  apply (getIndex_first_match _ 2 [VRef 0] [] (VRef 1) (VRef 3) (VNumber 1) (VNumber 1)).
  - reflexivity.
  - reflexivity.
  - constructor; [|constructor]. exists (VNumber 0). split; reflexivity.
  - reflexivity.
  - reflexivity.
Defined.

(** X6: [getIndex] returns [-1] when every element has a readable [id] that
    differs from [elem.id]. *)
Theorem getIndex_no_match (h : heap) (l : loc) (es : list value)
    (elem elem_id : value) :
  h !! l = Some (CArray es) ->
  get_id h elem = Ret elem_id ->
  Forall (passes h elem_id) es ->
  getIndex h (VRef l) elem = Ret (VNumber (-1)%float).
Proof.
  intros Hl Helem Hes. unfold getIndex. rewrite Hl.
  eapply getIndex_loop_not_found; eassumption.
Qed.

Lemma getIndex_no_match_witness :
  getIndex [CObject [("id", VNumber 0)]; CObject [("id", VNumber 1)];
            CArray [VRef 0; VRef 1]; CObject [("id", VString "1")]]
           (VRef 2) (VRef 3)
  = Ret (VNumber (-1)%float).
Proof.
  apply (getIndex_no_match _ 2 [VRef 0; VRef 1] (VRef 3) (VString "1")).
  - reflexivity.
  - reflexivity.
  - constructor; [|constructor; [|constructor]].
    + exists (VNumber 0). split; reflexivity.
    + exists (VNumber 1). split; reflexivity.
Defined.

Lemma get_prop_absent k ps : k ∉ ps.*1 -> get_prop k ps = VUndefined.
Proof.
  induction ps as [|[k0 v0] ps IH]; simpl; intros Hk; [reflexivity|].
  rewrite not_elem_of_cons in Hk. destruct Hk as [Hne Hk].
  destruct (String.eqb_spec k k0) as [->|_]; [congruence|]. apply IH, Hk.
Qed.

(** X7: A missing [id] is an [id] like another: [undefined === undefined],
    so an object without [id] is found at index 0 of any array whose
    first element is an object without [id]. *)
Theorem getIndex_missing_ids_match (h : heap) (l le l0 : loc) (post : list value)
    (ps ps0 : list (string * value)) :
  h !! l = Some (CArray (VRef l0 :: post)) ->
  h !! le = Some (CObject ps) -> "id" ∉ ps.*1 ->
  h !! l0 = Some (CObject ps0) -> "id" ∉ ps0.*1 ->
  getIndex h (VRef l) (VRef le) = Ret (VNumber 0).
Proof.
  intros Hl Hle Hid Hl0 Hid0. unfold getIndex. rewrite Hl.
  apply (getIndex_loop_found h (VRef le) [] (VRef l0) post VUndefined VUndefined 0).
  - cbn. rewrite Hle, (get_prop_absent _ _ Hid). reflexivity.
  - constructor.
  - cbn. rewrite Hl0, (get_prop_absent _ _ Hid0). reflexivity.
  - reflexivity.
Qed.

Lemma getIndex_missing_ids_match_witness :
  getIndex [CObject [("name", VString "a")]; CArray [VRef 0]; CObject []]
           (VRef 1) (VRef 2)
  = Ret (VNumber 0).
Proof.
  apply (getIndex_missing_ids_match _ 1 2 0 [] [] [("name", VString "a")]).
  - reflexivity.
  - reflexivity.
  - apply not_elem_of_nil.
  - reflexivity.
  - cbn. rewrite list_elem_of_singleton. discriminate.
Defined.

(** X8: What cannot be read stops the search with a [TypeError]: a [null] or
    [undefined] [elem] as soon as the array has an element, and a [null]
    or [undefined] element that the loop reaches.  On the empty array
    nothing is read and the result is [-1] for any [elem]. *)
Theorem getIndex_unreadable (h : heap) (l : loc) (elem : value) :
  (forall pre e post,
      h !! l = Some (CArray (pre ++ e :: post)) ->
      (elem = VNull \/ elem = VUndefined) \/
      (exists elem_id, get_id h elem = Ret elem_id /\
                       Forall (passes h elem_id) pre /\
                       (e = VNull \/ e = VUndefined)) ->
      getIndex h (VRef l) elem = Throw TypeError) /\
  (h !! l = Some (CArray []) ->
   getIndex h (VRef l) elem = Ret (VNumber (-1)%float)).
Proof.
  split.
  - intros pre e post Hl Hcase. unfold getIndex. rewrite Hl.
    destruct Hcase as [Helem|(elem_id & Helem & Hpre & He)].
    + destruct pre; destruct Helem as [-> | ->]; reflexivity.
    + clear Hl. generalize 0 as i. induction Hpre as [|e0 pre (id0 & H0 & Hne) _ IH]; intros i.
      * cbn [app getIndex_loop]. rewrite (bind_Ret _ _ _ Helem).
        destruct He as [-> | ->]; reflexivity.
      * cbn [app getIndex_loop].
        rewrite (bind_Ret _ _ _ Helem), (bind_Ret _ _ _ H0), Hne. apply IH.
  - intros Hl. unfold getIndex. rewrite Hl. reflexivity.
Qed.

Lemma getIndex_unreadable_witness :
  getIndex [CObject [("id", VNumber 0)]; CArray [VRef 0; VNull]; CObject [("id", VNumber 1)]]
           (VRef 1) (VRef 2)
  = Throw TypeError /\
  getIndex [CArray []] (VRef 0) VNull = Ret (VNumber (-1)%float).
Proof.
  split.
  - apply (proj1 (getIndex_unreadable _ 1 (VRef 2)) [VRef 0] VNull []).
    + reflexivity.
    + right. exists (VNumber 1). split; [reflexivity|]. split; [|left; reflexivity].
      constructor; [|constructor]. exists (VNumber 0). split; reflexivity.
  - apply (proj2 (getIndex_unreadable [CArray []] 0 VNull)). reflexivity.
Defined.

(** ** clone on cyclic values *)

Lemma reachable_prefix (h h' : heap) v l :
  h `prefix_of` h' -> reachable h v l -> reachable h' v l.
Proof.
  intros Hpre. induction 1 as [l|l es e l' Hl He _ IH|l ps k v l' Hl Hp _ IH].
  - constructor.
  - eapply reach_elem; [eapply prefix_lookup_Some; eassumption|exact He|exact IH].
  - eapply reach_prop; [eapply prefix_lookup_Some; eassumption|exact Hp|exact IH].
Qed.

Lemma on_cycle_prefix (h h' : heap) l :
  h `prefix_of` h' -> on_cycle h l -> on_cycle h' l.
Proof.
  intros Hpre (c & Hc & Hr). exists c. split; [|eapply reachable_prefix; eassumption].
  destruct Hc as [(es & Hl & He)|(ps & k & Hl & Hp)]; [left|right].
  - exists es. split; [eapply prefix_lookup_Some; eassumption|exact He].
  - exists ps, k. split; [eapply prefix_lookup_Some; eassumption|exact Hp].
Qed.

(** A value that reaches a cell on a cycle is a reference with a child
    that reaches it too. *)
Lemma reach_cycle_child (h : heap) v l :
  reachable h v l -> on_cycle h l ->
  exists l0 c, v = VRef l0 /\ child_of h l0 c /\ reachable h c l.
Proof.
  intros Hr Hcyc. destruct Hr as [l|l0 es e l Hl He Hr|l0 ps k v l Hl Hp Hr].
  - destruct Hcyc as (c & Hc & Hrc). eauto.
  - exists l0, e. split; [reflexivity|]. split; [left; eauto|exact Hr].
  - exists l0, v. split; [reflexivity|]. split; [right; eauto|exact Hr].
Qed.

Lemma store_prop_inv o k v (h h' : heap) :
  store_prop o k v h = Ret h' ->
  exists ps, h !! o = Some (CObject ps) /\ h' = <[o := CObject (set_prop k v ps)]> h.
Proof.
  unfold store_prop. destruct (h !! o) as [[es|ps|c]|]; try discriminate.
  intros H. injection H as <-. eauto.
Qed.

Section CloneVisits.
Variable cl : heap -> value -> outcome (heap * value).
Hypothesis cl_prefix : forall h v h' r, cl h v = Ret (h', r) -> h `prefix_of` h'.

(** When the whole array or object is cloned, each child has been
    cloned in a heap that extends the initial one. *)
Lemma map_clone_visits es : forall (h h' : heap) rs e,
  map_clone cl h es = Ret (h', rs) -> e ∈ es ->
  exists h1 res, h `prefix_of` h1 /\ cl h1 e = Ret res.
Proof.
  induction es as [|e0 es IH]; intros h h' rs e H He; [by apply elem_of_nil in He|].
  simpl in H.
  apply bind_Ret_inv in H as ([h1 r] & Hcl & H).
  apply bind_Ret_inv in H as ([h2 rs'] & Hrest & _).
  apply elem_of_cons in He as [->|He].
  - exists h, (h1, r). split; [reflexivity|exact Hcl].
  - destruct (IH _ _ _ _ Hrest He) as (h3 & res & Hp & Hc).
    exists h3, res. split; [|exact Hc]. etrans; [eapply cl_prefix, Hcl|exact Hp].
Qed.

Lemma clone_props_visits (h0 : heap) o ps : forall (h h' : heap) k v,
  length h0 <= o -> h0 `prefix_of` h ->
  clone_props cl o h ps = Ret h' -> (k, v) ∈ ps ->
  exists h1 res, h0 `prefix_of` h1 /\ cl h1 v = Ret res.
Proof.
  induction ps as [|[k0 v0] ps IH]; intros h h' k v Ho Hpre H Hin;
    [by apply elem_of_nil in Hin|].
  simpl in H.
  apply bind_Ret_inv in H as ([h1 r] & Hcl & H).
  apply bind_Ret_inv in H as (h2 & Hst & Hrest).
  apply elem_of_cons in Hin as [Heq|Hin].
  - injection Heq as -> ->. exists h, (h1, r). split; [exact Hpre|exact Hcl].
  - apply store_prop_inv in Hst as (acc & _ & ->).
    eapply (IH _ _ _ _ Ho); [|exact Hrest|exact Hin].
    apply prefix_insert_ge; [|exact Ho].
    etrans; [exact Hpre|eapply cl_prefix, Hcl].
Qed.
End CloneVisits.

(** X2: [clone] has no cycle detection: on a value from which a cycle can
    be reached no amount of fuel lets the call return (it recurses
    without end, unless it throws on the way). *)
Theorem clone_cyclic_never_returns (n : nat) : forall (h : heap) (v : value) (l : loc)
    (res : heap * value),
  reachable h v l -> on_cycle h l -> clone n h v <> Ret res.
Proof.
  induction n as [|n IH]; intros h v l res Hr Hcyc H; [discriminate|].
  destruct (reach_cycle_child _ _ _ Hr Hcyc) as (l0 & c & -> & Hc & Hrc).
  simpl in H.
  assert (Hh0 : h `prefix_of` h ++ [CObject []]) by (by apply prefix_app_r).
  destruct Hc as [(es & Hl & He)|(ps & k & Hl & Hp)]; rewrite Hl in H.
  - apply bind_Ret_inv in H as ([h2 rs] & Hmap & _).
    destruct (map_clone_visits _ (clone_prefix n) _ _ _ _ _ Hmap He)
      as (h1 & res1 & Hp1 & Hcl).
    assert (Hp : h `prefix_of` h1).
    { etrans; [|exact Hp1]. rewrite <- (assoc_L (++)). by apply prefix_app_r. }
    eapply (IH h1 c l res1); [| |exact Hcl].
    + eapply reachable_prefix; eassumption.
    + eapply on_cycle_prefix; eassumption.
  - apply bind_Ret_inv in H as (h2 & Hprops & _).
    destruct (clone_props_visits _ (clone_prefix n) h _ _ _ _ _ _
                (Nat.le_refl _) Hh0 Hprops Hp) as (h1 & res1 & Hp1 & Hcl).
    eapply (IH h1 c l res1); [| |exact Hcl].
    + eapply reachable_prefix; eassumption.
    + eapply on_cycle_prefix; eassumption.
Qed.

(** An array that holds itself. *)
Lemma clone_cyclic_never_returns_witness :
  clone 5 [CArray [VRef 0]] (VRef 0) <> Ret ([CArray [VRef 0]; CArray [VRef 1]], VRef 1) /\
  clone 5 [CArray [VRef 0]] (VRef 0) = Timeout.
Proof.
  split; [|reflexivity].
  apply (clone_cyclic_never_returns 5 [CArray [VRef 0]] (VRef 0) 0).
  - apply reach_here.
  - exists (VRef 0). split; [|apply reach_here].
    left. exists [VRef 0]. split; [reflexivity|apply list_elem_of_here].
Defined.


(** ** Comparing floats *)

Lemma SFcompare_antisym (x y : spec_float) :
  SFcompare y x = option_map CompOpp (SFcompare x y).
Proof.
  destruct x as [sx|sx| |sx mx ex], y as [sy|sy| |sy my ey]; simpl;
    try reflexivity; try (destruct sx; reflexivity); try (destruct sy; reflexivity);
    try (destruct sx, sy; reflexivity).
  destruct sx, sy; try reflexivity; rewrite (Z.compare_antisym ex ey);
    destruct (ex ?= ey)%Z; simpl; try reflexivity.
  - f_equal. f_equal. symmetry. apply (Pos.compare_cont_antisym mx my Eq).
  - f_equal. symmetry. apply (Pos.compare_cont_antisym mx my Eq).
Qed.

Lemma ltb_asym (x y : float) : (x <? y)%float = true -> (y <? x)%float = false.
Proof.
  rewrite !ltb_spec. unfold SFltb. rewrite (SFcompare_antisym (Prim2SF x) (Prim2SF y)).
  destruct (SFcompare (Prim2SF x) (Prim2SF y)) as [[| |]|]; simpl; congruence.
Qed.

Lemma ltb_irrefl (x : float) : (x <? x)%float = false.
Proof.
  destruct (x <? x)%float eqn:H; [|reflexivity].
  pose proof (ltb_asym x x H). congruence.
Qed.

Lemma leb_not_gt (x y : float) : (x <=? y)%float = true -> (y <? x)%float = false.
Proof.
  rewrite leb_spec, ltb_spec. unfold SFleb, SFltb.
  rewrite (SFcompare_antisym (Prim2SF x) (Prim2SF y)).
  destruct (SFcompare (Prim2SF x) (Prim2SF y)) as [[| |]|]; simpl; congruence.
Qed.

(** ** sortNumeric *)

Lemma float_one_not_zero : 1%float <> 0%float.
Proof. intros H. apply (f_equal (fun z => (0 <? z)%float)) in H. discriminate. Qed.

Lemma float_minus_one_not_zero : (-1)%float <> 0%float.
Proof. intros H. apply (f_equal (fun z => (z <? 0)%float)) in H. discriminate. Qed.

Lemma float_one_not_minus_one : 1%float <> (-1)%float.
Proof. intros H. apply (f_equal (fun z => (0 <? z)%float)) in H. discriminate. Qed.

Lemma Ret_VNumber_inj (x y : float) :
  @Ret value (VNumber x) = Ret (VNumber y) -> x = y.
Proof.
  intros H.
  exact (f_equal (fun o => match o with Ret (VNumber z) => z | _ => x end) H).
Qed.

(** X16: [sortNumeric] is a consistent comparator on everything it converts:
    it answers [1] one way exactly when it answers [-1] the other way,
    [0] one way exactly when [0] the other way, and [0] for a value
    against itself.  ([NaN] compares as equal to everything.) *)
Theorem sortNumeric_antisymmetric (string_to_number : string -> float) (a b : value) :
  let cmp := sortNumeric string_to_number in
  (cmp a b = Ret (VNumber 1) <-> cmp b a = Ret (VNumber (-1))) /\
  (cmp a b = Ret (VNumber 0) <-> cmp b a = Ret (VNumber 0)) /\
  (is_primitive a = true -> cmp a a = Ret (VNumber 0)).
Proof.
  intros cmp. subst cmp. unfold sortNumeric.
  pose proof float_one_not_zero. pose proof float_minus_one_not_zero.
  pose proof float_one_not_minus_one.
  split; [|split].
  - destruct (to_number string_to_number a) as [x|], (to_number string_to_number b) as [y|];
      try (split; discriminate).
    destruct (y <? x)%float eqn:Hyx, (x <? y)%float eqn:Hxy.
    + pose proof (ltb_asym _ _ Hyx). congruence.
    + split; reflexivity.
    + split; intros Heq; apply Ret_VNumber_inj in Heq; congruence.
    + split; intros Heq; apply Ret_VNumber_inj in Heq; congruence.
  - destruct (to_number string_to_number a) as [x|], (to_number string_to_number b) as [y|];
      try (split; discriminate).
    destruct (y <? x)%float eqn:Hyx, (x <? y)%float eqn:Hxy.
    + pose proof (ltb_asym _ _ Hyx). congruence.
    + split; intros Heq; apply Ret_VNumber_inj in Heq; congruence.
    + split; intros Heq; apply Ret_VNumber_inj in Heq; congruence.
    + split; reflexivity.
  - intros Hp. destruct (to_number string_to_number a) as [x|] eqn:Ha.
    + rewrite ltb_irrefl. reflexivity.
    + destruct a as [| |[|]|x|s|l]; discriminate.
Qed.

(** ** generateScale keeps to the output range *)

(** X17: When [outputMin <= outputMax], the scale never returns a number below
    [outputMin] or above [outputMax], whatever the input range and the
    input: each of the three results of [_scale] passes both tests.
    (A [NaN] result, as for [0 / 0] when the input range is empty, passes
    them too.) *)
Theorem generateScale_clamped (inputMin inputMax outputMin outputMax x : float) :
  (outputMin <=? outputMax)%float = true ->
  let y := generateScale inputMin inputMax outputMin outputMax x in
  (y <? outputMin)%float = false /\ (outputMax <? y)%float = false.
Proof.
  intros Hle y. subst y. unfold generateScale.
  set (test := ((outputMax - outputMin) * (x - inputMin) / (inputMax - inputMin)
                + outputMin)%float).
  destruct (test <? outputMin)%float eqn:Hlo.
  - split; [apply ltb_irrefl|apply leb_not_gt, Hle].
  - destruct (outputMax <? test)%float eqn:Hhi.
    + split; [|apply ltb_irrefl].
      destruct (outputMax <? outputMin)%float eqn:H; [|reflexivity].
      rewrite (leb_not_gt _ _ Hle) in H. discriminate.
    + split; assumption.
Qed.

Lemma generateScale_clamped_witness :
  let y := generateScale 5 10 10 20 11 in
  (y <? 10)%float = false /\ (20 <? y)%float = false.
Proof.
  apply (generateScale_clamped 5 10 10 20 11). reflexivity.
Defined.

Lemma sortNumeric_antisymmetric_witness :
  sortNumeric (fun _ => nan) (VNumber 3) (VNumber 3) = Ret (VNumber 0).
Proof.
  apply (proj2 (proj2 (sortNumeric_antisymmetric (fun _ => nan) (VNumber 3) (VNumber 3)))).
  reflexivity.
Defined.

(** ** The monad laws *)

Section MonadLaws.
Variable h : heap.
Variable modifier : option (mvalue -> mvalue -> outcome mvalue).
Variable prototype : gmap string pentry.
Hypothesis marker : is_Some (prototype !! "_is_monad").

(** Wrapping again what only returns monads changes nothing. *)
Lemma rewrap_monadic (m : outcome mvalue) :
  (forall r, m = Ret r -> is_monad h prototype r = true) ->
  (r ← m; if is_monad h prototype r then Ret r else unit modifier r) = m.
Proof.
  intros Hm. destruct m as [r| | |]; try reflexivity.
  rewrite (bind_Ret _ _ r eq_refl), (Hm r eq_refl). reflexivity.
Qed.

Lemma instance_bind_is_monad m fn args r :
  instance_bind h modifier prototype m fn args = Ret r ->
  is_monad h prototype r = true.
Proof.
  destruct m as [v| |v]; simpl.
  - discriminate.
  - destruct (prototype !! "bind") as [[|f]|]; discriminate.
  - apply bind_is_monad, marker.
Qed.
End MonadLaws.

(** X14: The monad laws, as far as the modifier allows.  For a constructor
    whose prototype has its marker: (1) [unit(v).bind(f)] is [f] applied
    to the value that the instance stores (the modified [v]), when [f]
    returns monads; (2) [m.bind(unit)] is [unit(m.value())]: the same
    instance only if the modifier leaves the stored value alone, and
    always so without modifier; (3) [m.bind(f).bind(g)] is
    [m.bind(v => f(v).bind(g))] when [f] returns monads. *)
Theorem monad_laws (h : heap) (modifier : option (mvalue -> mvalue -> outcome mvalue))
    (prototype : gmap string pentry) :
  is_Some (prototype !! "_is_monad") ->
  (forall v m f,
      unit modifier v = Ret m ->
      exists stored, m = MInstance stored /\
        ((forall r, f [stored] = Ret r -> is_monad h prototype r = true) ->
         instance_bind h modifier prototype m f None = f [stored])) /\
  (forall stored,
      instance_bind h modifier prototype (MInstance stored) (unit_fn modifier) None
      = unit modifier stored) /\
  (forall stored f g,
      (forall r, f [stored] = Ret r -> is_monad h prototype r = true) ->
      (m ← instance_bind h modifier prototype (MInstance stored) f None;
       instance_bind h modifier prototype m g None)
      = instance_bind h modifier prototype (MInstance stored)
          (fun arguments => m ← f arguments;
                            instance_bind h modifier prototype m g None) None).
Proof.
  intros Hmarker. split; [|split].
  - intros v m f Hunit. unfold unit in Hunit.
    apply bind_Ret_inv in Hunit as (stored & _ & Hm). injection Hm as <-.
    exists stored. split; [reflexivity|]. intros Hf.
    cbn [instance_bind]. unfold bind. cbn [default].
    apply rewrap_monadic, Hf.
  - intros stored. cbn [instance_bind]. unfold bind, unit_fn. cbn [default hd].
    apply rewrap_monadic. intros r. apply unit_is_monad, Hmarker.
  - intros stored f g Hf. cbn [instance_bind]. unfold bind. cbn [default].
    rewrite (rewrap_monadic h modifier prototype (f [stored]) Hf).
    symmetry. apply rewrap_monadic. intros r Hr.
    apply bind_Ret_inv in Hr as (m & _ & Hr).
    eapply instance_bind_is_monad; eassumption.
Qed.

Lemma monad_laws_witness :
  let modifier := Some (test_modifier initial_prototype) in
  instance_bind [] modifier initial_prototype (MInstance (MPlain (VString "x")))
                (unit_fn modifier) None
  = Ret (MInstance (MPlain (VString "x - modified"))).
Proof.
  intros modifier.
  rewrite (proj1 (proj2 (monad_laws [] modifier initial_prototype
                           (ex_intro _ PMarker eq_refl)))).
  reflexivity.
Defined.


(** ** memoize: keys that hide arguments, arguments without key *)

Section KeyFacts.
Variable number_to_string : float -> string.
Variable quote_json : string -> string.

Local Abbreviation serialize := (serialize_property number_to_string quote_json).
Local Abbreviation stringify := (stringify_arguments number_to_string quote_json).

Lemma serialize_members_dropped ser ps k v :
  ser v = Ret None ->
  serialize_members quote_json ser (ps ++ [(k, v)]) = serialize_members quote_json ser ps.
Proof.
  intros Hv. induction ps as [|[k0 v0] ps IH].
  - simpl. rewrite (bind_Ret _ _ None Hv). reflexivity.
  - cbn [app serialize_members]. rewrite IH. reflexivity.
Qed.

(** A trailing argument that is [undefined] or a function leaves no
    trace in the key. *)
Lemma stringify_trailing (h : heap) arguments v :
  v = VUndefined \/ (exists l code, v = VRef l /\ h !! l = Some (CFunction code)) ->
  stringify h (arguments ++ [v]) = stringify h arguments.
Proof.
  intros Hv. unfold stringify_arguments, arguments_object.
  rewrite imap_app. cbn [imap]. rewrite serialize_members_dropped; [reflexivity|].
  destruct Hv as [->|(l & code & -> & Hl)]; simpl; [reflexivity|].
  rewrite Hl. reflexivity.
Qed.

Lemma serialize_elements_each ser es : forall parts e,
  serialize_elements ser es = Ret parts -> e ∈ es -> exists o, ser e = Ret o.
Proof.
  induction es as [|e0 es IH]; intros parts e H He; [by apply elem_of_nil in He|].
  simpl in H.
  apply bind_Ret_inv in H as (o & Ho & H).
  apply bind_Ret_inv in H as (rest & Hrest & _).
  apply elem_of_cons in He as [->|He]; [eauto|]. eapply IH; eassumption.
Qed.

Lemma serialize_members_each ser ps : forall parts k v,
  serialize_members quote_json ser ps = Ret parts -> (k, v) ∈ ps ->
  exists o, ser v = Ret o.
Proof.
  induction ps as [|[k0 v0] ps IH]; intros parts k v H Hin;
    [by apply elem_of_nil in Hin|].
  simpl in H.
  apply bind_Ret_inv in H as (o & Ho & H).
  apply bind_Ret_inv in H as (rest & Hrest & _).
  apply elem_of_cons in Hin as [Heq|Hin]; [injection Heq as -> ->; eauto|].
  eapply IH; eassumption.
Qed.

(** No fuel and no stack lets the serialisation of a value return when a
    cycle can be reached from it. *)
Lemma serialize_cyclic n : forall (h : heap) stack v l o,
  reachable h v l -> on_cycle h l -> serialize n h stack v <> Ret o.
Proof.
  induction n as [|n IH]; intros h stack v l o Hr Hcyc H; [discriminate|].
  destruct (reach_cycle_child _ _ _ Hr Hcyc) as (l0 & c & -> & Hc & Hrc).
  simpl in H.
  destruct Hc as [(es & Hl & He)|(ps & k & Hl & Hp)]; rewrite Hl in H;
    (case_bool_decide; [discriminate|]);
    apply bind_Ret_inv in H as (parts & Hparts & _).
  - destruct (serialize_elements_each _ _ _ _ Hparts He) as (o' & Ho').
    exact (IH _ _ _ _ _ Hrc Hcyc Ho').
  - destruct (serialize_members_each _ _ _ _ _ Hparts Hp) as (o' & Ho').
    exact (IH _ _ _ _ _ Hrc Hcyc Ho').
Qed.

Lemma stringify_cyclic (h : heap) arguments i v l key :
  arguments !! i = Some v -> reachable h v l -> on_cycle h l ->
  stringify h arguments <> Ret key.
Proof.
  intros Hi Hr Hcyc H. unfold stringify_arguments in H.
  apply bind_Ret_inv in H as (parts & Hparts & _).
  assert (Hin : (pretty i, v) ∈ arguments_object arguments).
  { unfold arguments_object. apply elem_of_lookup_imap. eauto. }
  destruct (serialize_members_each _ _ _ _ _ Hparts Hin) as (o & Ho).
  exact (serialize_cyclic _ _ _ _ _ _ Hr Hcyc Ho).
Qed.
End KeyFacts.

(** X12: A call and the same call with one more argument, [undefined] or a
    function, have the same key: once the first has returned a result
    other than [undefined], the second returns that result without
    running [fn], although [fn] could tell the two calls apart.  ([fn]
    is assumed to leave the heap as it found it, so that the arguments
    serialise as before.) *)
Theorem memoize_ignores_trailing {W : Type}
    (number_to_string : float -> string) (quote_json : string -> string)
    (heap_of : W -> heap) (fn : jsfun W)
    (memo memo1 : gmap string value) (s s1 : W) (arguments : list value) (r v : value) :
  _memoize number_to_string quote_json heap_of fn arguments (memo, s)
    = Ret ((memo1, s1), r) ->
  r <> VUndefined ->
  heap_of s1 = heap_of s ->
  v = VUndefined \/
    (exists l code, v = VRef l /\ heap_of s !! l = Some (CFunction code)) ->
  _memoize number_to_string quote_json heap_of fn (arguments ++ [v]) (memo1, s1)
    = Ret ((memo1, s1), r).
Proof.
  intros H Hne Hheap Hv.
  destruct (memoize_inv _ _ _ _ _ _ _ _ _ _ H) as (k & Hk & _).
  eapply memoize_hit; [|eapply memoize_stores; eassumption|exact Hne].
  rewrite Hheap, stringify_trailing; assumption.
Qed.

Lemma memoize_ignores_trailing_witness :
  _memoize (fun _ => "1") (fun s => s) (fun _ : () => [])
           (constant_fn (VString "a")) [VNumber 1; VUndefined]
           (<["{0:1}" := VString "a"]> ∅, ())
  = Ret ((<["{0:1}" := VString "a"]> ∅, ()), VString "a").
Proof.
  apply (memoize_ignores_trailing (fun _ => "1") (fun s => s) (fun _ : () => [])
           (constant_fn (VString "a")) ∅ _ () () [VNumber 1] (VString "a") VUndefined).
  - reflexivity.
  - discriminate.
  - reflexivity.
  - left. reflexivity.
Defined.



(** ** clone does not keep sharing *)

(** The copy of an array or object is a cell allocated during the
    call. *)
Lemma clone_container_fresh n (h h' : heap) l c r :
  h !! l = Some c -> (forall code, c <> CFunction code) ->
  clone n h (VRef l) = Ret (h', r) ->
  exists l', r = VRef l' /\ length h <= l' < length h'.
Proof.
  intros Hl Hnf H. pose proof (clone_prefix _ _ _ _ _ H) as Hpre.
  destruct n as [|n]; [discriminate|]. simpl in H. rewrite Hl in H.
  destruct c as [es|ps|code]; [| |by destruct (Hnf code)].
  - apply bind_Ret_inv in H as ([h2 rs] & Hmap & H). injection H as <- <-.
    apply map_clone_prefix in Hmap; [|apply clone_prefix].
    apply prefix_length in Hmap. rewrite !length_app in Hmap. simpl in Hmap.
    exists (length (h ++ [CObject []])). split; [reflexivity|].
    rewrite length_insert, length_app. simpl. lia.
  - apply bind_Ret_inv in H as (h2 & Hprops & H). injection H as <- <-.
    exists (length h). split; [reflexivity|]. split; [lia|].
    eapply (clone_props_prefix _ (clone_prefix n) h) in Hprops as [_ [acc Hacc]].
    + eapply lookup_lt_Some, Hacc.
    + lia.
    + by apply prefix_app_r.
    + rewrite lookup_app_r, Nat.sub_diag; [reflexivity|lia].
Qed.

Section MapCloneOrder.
Variable cl : heap -> value -> outcome (heap * value).
Hypothesis cl_prefix : forall h v h' r, cl h v = Ret (h', r) -> h `prefix_of` h'.

Lemma map_clone_at es : forall (h h' : heap) rs j e,
  map_clone cl h es = Ret (h', rs) -> es !! j = Some e ->
  exists hj hj' rj,
    h `prefix_of` hj /\ cl hj e = Ret (hj', rj) /\ rs !! j = Some rj.
Proof.
  induction es as [|e0 es IH]; intros h h' rs j e H Hj; [discriminate|].
  simpl in H.
  apply bind_Ret_inv in H as ([h1 r] & Hcl & H).
  apply bind_Ret_inv in H as ([h2 rs'] & Hrest & H). injection H as <- <-.
  destruct j as [|j].
  - injection Hj as <-. exists h, h1, r. split; [reflexivity|]. split; [exact Hcl|reflexivity].
  - destruct (IH _ _ _ _ _ Hrest Hj) as (hj & hj' & rj & Hp & Hc & Hr).
    exists hj, hj', rj. split; [|split; [exact Hc|exact Hr]].
    etrans; [eapply cl_prefix, Hcl|exact Hp].
Qed.

(** Of two elements, the later one is cloned in a heap that extends the
    heap left by the clone of the earlier one. *)
Lemma map_clone_pair es : forall (h h' : heap) rs i j ei ej,
  map_clone cl h es = Ret (h', rs) -> i < j ->
  es !! i = Some ei -> es !! j = Some ej ->
  exists hi hi' ri hj hj' rj,
    cl hi ei = Ret (hi', ri) /\ hi' `prefix_of` hj /\ cl hj ej = Ret (hj', rj) /\
    h `prefix_of` hi /\ rs !! i = Some ri /\ rs !! j = Some rj.
Proof.
  induction es as [|e0 es IH]; intros h h' rs i j ei ej H Hij Hi Hj; [discriminate|].
  simpl in H.
  apply bind_Ret_inv in H as ([h1 r] & Hcl & H).
  apply bind_Ret_inv in H as ([h2 rs'] & Hrest & H). injection H as <- <-.
  destruct j as [|j]; [lia|]. destruct i as [|i].
  - injection Hi as <-.
    destruct (map_clone_at _ _ _ _ _ _ Hrest Hj) as (hj & hj' & rj & Hp & Hc & Hr).
    exists h, h1, r, hj, hj', rj. repeat split; try assumption; reflexivity.
  - destruct (IH _ _ _ i j ei ej Hrest ltac:(lia) Hi Hj)
      as (hi & hi' & ri & hj & hj' & rj & Hci & Hp & Hcj & Hph & Hri & Hrj).
    exists hi, hi', ri, hj, hj', rj. repeat split; try assumption.
    etrans; [eapply cl_prefix, Hcl|exact Hph].
Qed.
End MapCloneOrder.

(** X3: An array that holds the same array or object at two places is
    cloned into an array that holds two different copies of it: [clone]
    turns shared structure into duplicated structure. *)
Theorem clone_unshares (n : nat) (h h' : heap) (a l i j : loc) (es : list value)
    (c : cell) (r : value) :
  h !! a = Some (CArray es) ->
  es !! i = Some (VRef l) -> es !! j = Some (VRef l) -> i <> j ->
  h !! l = Some c -> (forall code, c <> CFunction code) ->
  clone n h (VRef a) = Ret (h', r) ->
  exists a' rs li lj,
    r = VRef a' /\ h' !! a' = Some (CArray rs) /\
    rs !! i = Some (VRef li) /\ rs !! j = Some (VRef lj) /\ li <> lj.
Proof.
  intros Ha Hi Hj Hij Hl Hnf H.
  destruct n as [|n]; [discriminate|]. simpl in H. rewrite Ha in H.
  apply bind_Ret_inv in H as ([h2 rs] & Hmap & H). injection H as <- <-.
  pose proof (map_clone_prefix _ (clone_prefix n) _ _ _ _ Hmap) as Hp2.
  set (h1 := (h ++ [CObject []]) ++ [CArray []]) in *.
  assert (Hh1 : h `prefix_of` h1).
  { subst h1. rewrite <- (assoc_L (++)). by apply prefix_app_r. }
  assert (Hlen : length (h ++ [CObject []]) < length h2).
  { apply prefix_length in Hp2. subst h1. rewrite !length_app in *. simpl in *. lia. }
  assert (Hpair : forall i j, i < j -> es !! i = Some (VRef l) -> es !! j = Some (VRef l) ->
            exists li lj, rs !! i = Some (VRef li) /\ rs !! j = Some (VRef lj) /\ li < lj).
  { intros i' j' Hlt Hi' Hj'.
    destruct (map_clone_pair _ (clone_prefix n) _ _ _ _ _ _ _ _ Hmap Hlt Hi' Hj')
      as (hi & hi' & ri & hj & hj' & rj & Hci & Hp & Hcj & Hph & Hri & Hrj).
    assert (Hli : hi !! l = Some c).
    { eapply prefix_lookup_Some; [exact Hl|]. etrans; eassumption. }
    destruct (clone_container_fresh _ _ _ _ _ _ Hli Hnf Hci) as (li & -> & _ & Hli').
    assert (Hlj : hj !! l = Some c).
    { eapply prefix_lookup_Some; [exact Hli|].
      etrans; [eapply clone_prefix, Hci|exact Hp]. }
    destruct (clone_container_fresh _ _ _ _ _ _ Hlj Hnf Hcj) as (lj & -> & Hlj' & _).
    exists li, lj. split; [exact Hri|]. split; [exact Hrj|].
    apply prefix_length in Hp. lia. }
  exists (length (h ++ [CObject []])), rs.
  destruct (Nat.lt_total i j) as [Hlt|[Heq|Hgt]]; [|congruence|].
  - destruct (Hpair i j Hlt Hi Hj) as (li & lj & Hri & Hrj & Hlt').
    exists li, lj. split; [reflexivity|]. split; [apply list_lookup_insert_eq, Hlen|].
    split; [exact Hri|]. split; [exact Hrj|lia].
  - destruct (Hpair j i Hgt Hj Hi) as (lj & li & Hrj & Hri & Hlt').
    exists li, lj. split; [reflexivity|]. split; [apply list_lookup_insert_eq, Hlen|].
    split; [exact Hri|]. split; [exact Hrj|lia].
Qed.

Lemma clone_unshares_witness :
  exists a' rs li lj,
    VRef 3 = VRef a' /\
    [CObject [("id", VNumber 0)]; CArray [VRef 0; VRef 0]; CObject [];
     CArray [VRef 4; VRef 6]; CObject [("id", VNumber 0)]; CObject [];
     CObject [("id", VNumber 0)]; CObject []] !! a' = Some (CArray rs) /\
    rs !! 0 = Some (VRef li) /\ rs !! 1 = Some (VRef lj) /\ li <> lj.
Proof.
  apply (clone_unshares 3 [CObject [("id", VNumber 0)]; CArray [VRef 0; VRef 0]] _
           1 0 0 1 [VRef 0; VRef 0] (CObject [("id", VNumber 0)]) (VRef 3)).
  - reflexivity.
  - reflexivity.
  - reflexivity.
  - lia.
  - reflexivity.
  - discriminate.
  - reflexivity.
Defined.
